(** * openapi3: the document root [T] of an OpenAPI v3 description

    A shallow embedding of [openapi3/openapi3.go]: the root document [T],
    its decoding entry point, version propagation, the two mutation
    helpers and the ordered validation of the root's fields.

    Go pointers are locations of a typed store ([Heap]); a nil pointer, a
    nil map and a nil slice are [None].  Methods that dereference their
    receiver run in the monad [M], where [None] is a run-time panic. *)

From stdpp Require Import gmap strings list fin_maps.
From Stdlib Require Import NArith Ascii.

Local Open Scope string_scope.

(** ** Errors

    [errors.New(text)] and [fmt.Errorf(prefix + "%w", e)].  The second one
    renders as the prefix followed by the text of [e] and unwraps to [e]. *)

Inductive error : Type :=
| errors_New (text : string)
| fmt_Errorf (prefix : string) (e : error).

Fixpoint Error (err : error) : string :=
  match err with
  | errors_New text => text
  | fmt_Errorf prefix e => prefix ++ Error e
  end.



(** ** Pointers *)

Definition loc := positive.
Abbreviation ptr := (option loc).

(** [uint64] minor versions: only stored and copied, never computed with. *)
Abbreviation uint64 := N.

(** [Version] is a string type. *)
Abbreviation Version := string (only parsing).

(** Go's [append(s, x)] on a possibly nil slice.  A slice is modelled by
    the list of its elements: what [append] returns for the slice it is
    given.  The backing array is not modelled, so nothing is said here
    about another slice that shares it. *)
Definition append {A} (s : option (list A)) (x : A) : option (list A) :=
  Some (default [] s ++ [x])%list.

(** ** Method keys

    Modelled from the spec: a path item holds at most one operation per
    HTTP method, for a bounded, known set of method keys: the method names
    of [net/http], in upper case. *)
Inductive Method : Type :=
| CONNECT | DELETE | GET | HEAD | OPTIONS | PATCH | POST | PUT | TRACE.

#[global] Instance Method_eq_dec : EqDecision Method.
Proof. solve_decision. Defined.

Definition Method_code (k : Method) : nat :=
  match k with
  | CONNECT => 0 | DELETE => 1 | GET => 2 | HEAD => 3 | OPTIONS => 4
  | PATCH => 5 | POST => 6 | PUT => 7 | TRACE => 8
  end.

Definition Method_of_code (n : nat) : Method :=
  match n with
  | 0 => CONNECT | 1 => DELETE | 2 => GET | 3 => HEAD | 4 => OPTIONS
  | 5 => PATCH | 6 => POST | 7 => PUT | _ => TRACE
  end.

#[global] Instance Method_countable : Countable Method.
Proof. apply (inj_countable' Method_code Method_of_code). by intros []. Defined.

Definition Method_name (k : Method) : string :=
  match k with
  | CONNECT => "CONNECT" | DELETE => "DELETE" | GET => "GET" | HEAD => "HEAD"
  | OPTIONS => "OPTIONS" | PATCH => "PATCH" | POST => "POST" | PUT => "PUT"
  | TRACE => "TRACE"
  end.

(** The key a method string names, if it names one; the match is exact. *)
Definition Method_of_string (method : string) : option Method :=
  if decide (method = "CONNECT") then Some CONNECT
  else if decide (method = "DELETE") then Some DELETE
  else if decide (method = "GET") then Some GET
  else if decide (method = "HEAD") then Some HEAD
  else if decide (method = "OPTIONS") then Some OPTIONS
  else if decide (method = "PATCH") then Some PATCH
  else if decide (method = "POST") then Some POST
  else if decide (method = "PUT") then Some PUT
  else if decide (method = "TRACE") then Some TRACE
  else None.

(** ** Collaborators that live in other files of the package *)

(** The method set shared by the nodes below the root; [Ctx] is
    [context.Context].  [Stamped v a] reads: [a] and all the nodes it owns
    carry the minor version [v]. *)
Class Node (Ctx A : Type) := {
  WithMinorOpenAPIVersion : uint64 -> A -> A;
  Validate : Ctx -> A -> option error;
  Stamped : uint64 -> A -> Prop
}.

(** Modelled from the spec: the contract of the children's
    [WithMinorOpenAPIVersion] (their code is not in this file): it stamps
    the node and what is below it, and doing it twice with the same value
    changes nothing more. *)
Class NodeLaws {Ctx} (A : Type) `{!Node Ctx A} : Prop := {
  stamp_Stamped : forall v (a : A), Stamped v (WithMinorOpenAPIVersion v a);
  stamp_idem : forall v (a : A),
    WithMinorOpenAPIVersion v (WithMinorOpenAPIVersion v a)
    = WithMinorOpenAPIVersion v a
}.

(** Modelled from the spec: the methods of a child held by pointer skip a
    nil receiver. *)
Definition Ptr_WithMinorOpenAPIVersion {Ctx A} `{!Node Ctx A} (minorVersion : uint64)
    (p : option A) : option A :=
  WithMinorOpenAPIVersion minorVersion <$> p.

(** Modelled from the spec: the slice types [SecurityRequirements],
    [Servers] and [Tags] stamp each of their elements. *)
Definition Slice_WithMinorOpenAPIVersion {Ctx A} `{!Node Ctx A} (minorVersion : uint64)
    (s : option (list A)) : option (list A) :=
  fmap (M:=list) (WithMinorOpenAPIVersion minorVersion) <$> s.

(** Modelled from the spec: the slice types validate their elements in
    order and return the first failure as it is. *)
Fixpoint Slice_Validate {Ctx A} `{!Node Ctx A} (ctx : Ctx) (s : list A) : option error :=
  match s with
  | [] => None
  | v :: rest =>
      match Validate ctx v with
      | Some err => Some err
      | None => Slice_Validate ctx rest
      end
  end.

(** The context and option types, the [Version] string type's two methods,
    and the types of the root's children, each with its methods. *)
Class Children := {
  Ctx : Type;
  ValidationOption : Type;
  WithValidationOptions : Ctx -> list ValidationOption -> Ctx;
  Version_Validate : Ctx -> Version -> option error;
  Version_Minor : Version -> uint64;
  Components : Type;
  Info : Type;
  SecurityRequirement : Type;
  Server : Type;
  Tag : Type;
  ExternalDocs : Type;
  Operation : Type;
  Components_Node :: Node Ctx Components;
  Info_Node :: Node Ctx Info;
  SecurityRequirement_Node :: Node Ctx SecurityRequirement;
  Server_Node :: Node Ctx Server;
  Tag_Node :: Node Ctx Tag;
  ExternalDocs_Node :: Node Ctx ExternalDocs;
  Operation_Node :: Node Ctx Operation
}.

Class ChildrenLaws `{Children} : Prop := {
  Components_Laws :: NodeLaws Components;
  Info_Laws :: NodeLaws Info;
  SecurityRequirement_Laws :: NodeLaws SecurityRequirement;
  Server_Laws :: NodeLaws Server;
  Tag_Laws :: NodeLaws Tag;
  ExternalDocs_Laws :: NodeLaws ExternalDocs;
  Operation_Laws :: NodeLaws Operation
}.

Section Document.
Context `{Children}.

(** ** The document graph *)

(** Modelled from the spec: [PathItem] (declared in another file) holds
    its own version stamp and at most one operation per method key. *)
Record PathItem := mkPathItem {
  pi_specMinorVersion : uint64;
  pi_operations : gmap Method ptr
}.

(** [T] is the root of an OpenAPI v3 document.  [Info] and [ExternalDocs]
    are pointers to nodes owned by the document, [Paths] is a reference to
    a map from path to [*PathItem], the three lists are slices.  The
    embedded [ExtensionProps] and the unexported [visited] are left out: no
    method of this file reads or writes them. *)
Record T := mkT {
  T_OpenAPI : Version;
  T_Components : Components;
  T_Info : option Info;
  T_Paths : ptr;
  T_Security : option (list SecurityRequirement);
  T_Servers : option (list Server);
  T_Tags : option (list Tag);
  T_ExternalDocs : option ExternalDocs;
  T_specMinorVersion : uint64
}.

Record Heap := mkHeap {
  h_docs : gmap loc T;
  h_paths : gmap loc (gmap string ptr);
  h_items : gmap loc PathItem;
  h_ops : gmap loc Operation
}.

Definition set_OpenAPI (x : Version) (d : T) : T :=
  mkT x (T_Components d) (T_Info d) (T_Paths d) (T_Security d)
      (T_Servers d) (T_Tags d) (T_ExternalDocs d) (T_specMinorVersion d).
Definition set_Components (x : Components) (d : T) : T :=
  mkT (T_OpenAPI d) x (T_Info d) (T_Paths d) (T_Security d)
      (T_Servers d) (T_Tags d) (T_ExternalDocs d) (T_specMinorVersion d).
Definition set_Info (x : option Info) (d : T) : T :=
  mkT (T_OpenAPI d) (T_Components d) x (T_Paths d) (T_Security d)
      (T_Servers d) (T_Tags d) (T_ExternalDocs d) (T_specMinorVersion d).
Definition set_Paths (x : ptr) (d : T) : T :=
  mkT (T_OpenAPI d) (T_Components d) (T_Info d) x (T_Security d)
      (T_Servers d) (T_Tags d) (T_ExternalDocs d) (T_specMinorVersion d).
Definition set_Security (x : option (list SecurityRequirement)) (d : T) : T :=
  mkT (T_OpenAPI d) (T_Components d) (T_Info d) (T_Paths d) x
      (T_Servers d) (T_Tags d) (T_ExternalDocs d) (T_specMinorVersion d).
Definition set_Servers (x : option (list Server)) (d : T) : T :=
  mkT (T_OpenAPI d) (T_Components d) (T_Info d) (T_Paths d) (T_Security d)
      x (T_Tags d) (T_ExternalDocs d) (T_specMinorVersion d).
Definition set_Tags (x : option (list Tag)) (d : T) : T :=
  mkT (T_OpenAPI d) (T_Components d) (T_Info d) (T_Paths d) (T_Security d)
      (T_Servers d) x (T_ExternalDocs d) (T_specMinorVersion d).
Definition set_ExternalDocs (x : option ExternalDocs) (d : T) : T :=
  mkT (T_OpenAPI d) (T_Components d) (T_Info d) (T_Paths d) (T_Security d)
      (T_Servers d) (T_Tags d) x (T_specMinorVersion d).
Definition set_specMinorVersion (x : uint64) (d : T) : T :=
  mkT (T_OpenAPI d) (T_Components d) (T_Info d) (T_Paths d) (T_Security d)
      (T_Servers d) (T_Tags d) (T_ExternalDocs d) x.

Definition with_docs (f : gmap loc T -> gmap loc T) (h : Heap) : Heap :=
  mkHeap (f (h_docs h)) (h_paths h) (h_items h) (h_ops h).
Definition with_paths (f : gmap loc (gmap string ptr) -> gmap loc (gmap string ptr))
    (h : Heap) : Heap :=
  mkHeap (h_docs h) (f (h_paths h)) (h_items h) (h_ops h).
Definition with_items (f : gmap loc PathItem -> gmap loc PathItem) (h : Heap) : Heap :=
  mkHeap (h_docs h) (h_paths h) (f (h_items h)) (h_ops h).
Definition with_ops (f : gmap loc Operation -> gmap loc Operation) (h : Heap) : Heap :=
  mkHeap (h_docs h) (h_paths h) (h_items h) (f (h_ops h)).

(** ** The monad of heap-manipulating methods: state plus panic *)

Definition M (A : Type) : Type := Heap -> option (A * Heap).

Definition ret {A} (a : A) : M A := fun h => Some (a, h).
Definition bind {A B} (m : M A) (k : A -> M B) : M B :=
  fun h => match m h with
           | Some (a, h') => k a h'
           | None => None
           end.
Definition panic {A} : M A := fun _ => None.
(** A heap update that cannot fail. *)
Definition modify (f : Heap -> Heap) : M unit := fun h => Some (tt, f h).

#[global] Instance M_ret : MRet M := @ret.
#[global] Instance M_bind : MBind M := fun A B k m => bind m k.

(** ** Heap primitives *)

(** [*doc]: reading through a nil pointer panics. *)
Definition load_doc (doc : ptr) : M T :=
  fun h => match doc with
           | Some l => d ← h_docs h !! l; Some (d, h)
           | None => None
           end.

(** [doc.field = x], written as an update of the pointee. *)
Definition update_doc (doc : ptr) (f : T -> T) : M unit :=
  d ← load_doc doc;
  match doc with
  | Some l => modify (with_docs (insert l (f d)))
  | None => panic
  end.

(** [make(Paths)]: a fresh, empty map. *)
Definition make_Paths : M ptr :=
  fun h => let l := fresh (dom (h_paths h)) in
           Some (Some l, with_paths (insert l ∅) h).

(** [paths[path]]: the zero value (nil) when the key is missing, and also
    when the map itself is nil. *)
Definition index_Paths (paths : ptr) (path : string) : M ptr :=
  fun h => match paths with
           | Some l => m ← h_paths h !! l; Some (default None (m !! path), h)
           | None => Some (None, h)
           end.

(** [paths[path] = pathItem]: assignment to an entry of a nil map panics. *)
Definition assign_Paths (paths : ptr) (path : string) (pathItem : ptr) : M unit :=
  fun h => match paths with
           | Some l =>
               m ← h_paths h !! l;
               Some (tt, with_paths (insert l (<[path := pathItem]> m)) h)
           | None => None
           end.

(** [&PathItem{}]: a fresh path item holding the zero value. *)
Definition new_PathItem : M ptr :=
  fun h => let l := fresh (dom (h_items h)) in
           Some (Some l, with_items (insert l (mkPathItem 0%N ∅)) h).

(** ** Methods of the nodes below the root *)

(** Modelled from the spec: [PathItem.SetOperation] (in another file)
    attaches [operation] under [method], overwriting what was there.  The
    method keys are a bounded, known set: a string outside it names no slot
    and the call panics. *)
Definition PathItem_SetOperation (pathItem : ptr) (method : string)
    (operation : ptr) : M unit :=
  fun h => match Method_of_string method with
           | Some k =>
               match pathItem with
               | Some l =>
                   item ← h_items h !! l;
                   Some (tt, with_items
                               (insert l (mkPathItem (pi_specMinorVersion item)
                                            (<[k := operation]> (pi_operations item))))
                               h)
               | None => None
               end
           | None => None
           end.

(** Modelled from the spec: [Operation.WithMinorOpenAPIVersion] on a
    pointer: an absent node is skipped, a present one is stamped in place. *)
Definition Operation_WithMinorOpenAPIVersion (minorVersion : uint64)
    (operation : ptr) (h : Heap) : Heap :=
  match operation with
  | Some l => with_ops (alter (WithMinorOpenAPIVersion minorVersion) l) h
  | None => h
  end.

(** Modelled from the spec: [PathItem.WithMinorOpenAPIVersion] stamps the
    path item, then each operation it holds. *)
Definition PathItem_WithMinorOpenAPIVersion (minorVersion : uint64)
    (pathItem : ptr) (h : Heap) : Heap :=
  match pathItem with
  | Some l =>
      match h_items h !! l with
      | Some item =>
          map_fold (fun _ operation acc =>
                      Operation_WithMinorOpenAPIVersion minorVersion operation acc)
                   (with_items
                      (insert l (mkPathItem minorVersion (pi_operations item))) h)
                   (pi_operations item)
      | None => h
      end
  | None => h
  end.

(** Modelled from the spec: [Paths.WithMinorOpenAPIVersion] stamps every
    path item of the map; a nil map is skipped. *)
Definition Paths_WithMinorOpenAPIVersion (minorVersion : uint64)
    (paths : ptr) (h : Heap) : Heap :=
  match paths with
  | Some l =>
      match h_paths h !! l with
      | Some m =>
          map_fold (fun _ pathItem acc =>
                      PathItem_WithMinorOpenAPIVersion minorVersion pathItem acc)
                   h m
      | None => h
      end
  | None => h
  end.

End Document.

(** The two remaining collaborators need the heap: [Paths.Validate] reads
    the map and the path items behind it;
    [jsoninfo.UnmarshalStrictStruct(data, doc)] fills the document in place
    and reports a decoding error. *)
Class Collaborators `{Children} := {
  Paths_Validate : Ctx -> Heap -> loc -> option error;
  jsoninfo_UnmarshalStrictStruct : list Byte.byte -> ptr -> M (option error)
}.

Section Methods.
Context `{Collaborators}.

(** ** The methods of [T] *)

(** [WithMinorOpenAPIVersion] allows to enable specification minor feature
    version. *)
Definition T_WithMinorOpenAPIVersion (doc : ptr) (minorVersion : uint64) : M ptr :=
  match doc with
  | Some _ =>
      update_doc doc (set_specMinorVersion minorVersion);;
      update_doc doc (fun d =>
        set_Components (WithMinorOpenAPIVersion minorVersion (T_Components d)) d);;
      update_doc doc (fun d =>
        set_Info (Ptr_WithMinorOpenAPIVersion minorVersion (T_Info d)) d);;
      d ← load_doc doc;
      modify (Paths_WithMinorOpenAPIVersion minorVersion (T_Paths d));;
      update_doc doc (fun d =>
        set_Security (Slice_WithMinorOpenAPIVersion minorVersion (T_Security d)) d);;
      update_doc doc (fun d =>
        set_Servers (Slice_WithMinorOpenAPIVersion minorVersion (T_Servers d)) d);;
      update_doc doc (fun d =>
        set_Tags (Slice_WithMinorOpenAPIVersion minorVersion (T_Tags d)) d);;
      update_doc doc (fun d =>
        set_ExternalDocs (Ptr_WithMinorOpenAPIVersion minorVersion (T_ExternalDocs d)) d);;
      mret doc
  | None => mret doc
  end.

(** [UnmarshalJSON] sets [T] to a copy of data.  The branch that
    propagates the version is the one of [err != nil]. *)
Definition T_UnmarshalJSON (doc : ptr) (data : list Byte.byte) : M (option error) :=
  err ← jsoninfo_UnmarshalStrictStruct data doc;
  match err with
  | Some _ =>
      d ← load_doc doc;
      T_WithMinorOpenAPIVersion doc (Version_Minor (T_OpenAPI d));;
      mret err
  | None => mret err
  end.

(** [AddOperation] updates [T] with a new operation for given method and
    path. *)
Definition T_AddOperation (doc : ptr) (path method : string) (operation : ptr)
    : M unit :=
  d ← load_doc doc;
  paths ← match T_Paths d with
          | None =>
              paths ← make_Paths;
              update_doc doc (set_Paths paths);;
              mret paths
          | Some _ => mret (T_Paths d)
          end;
  pathItem ← index_Paths paths path;
  pathItem ← match pathItem with
             | None =>
                 pathItem ← new_PathItem;
                 assign_Paths paths path pathItem;;
                 mret pathItem
             | Some _ => mret pathItem
             end;
  PathItem_SetOperation pathItem method operation;;
  d ← load_doc doc;
  modify (Operation_WithMinorOpenAPIVersion (T_specMinorVersion d) operation).

Definition T_AddServer (doc : ptr) (server : Server) : M unit :=
  update_doc doc (fun d => set_Servers (append (T_Servers d) server) d).

(** [Validate] returns an error if [T] does not comply with the OpenAPI
    spec.  The receiver is dereferenced at once, so the model takes the
    document [d] it points to, with the heap the path items live in. *)
Definition T_Validate (ctx : Ctx) (opts : list ValidationOption) (h : Heap) (d : T)
    : option error :=
  let ctx := WithValidationOptions ctx opts in
  let wrap := fmt_Errorf "invalid openapi value: " in
  if decide (T_OpenAPI d = "") then Some (wrap (errors_New "must be a non-empty string"))
  else
  match Version_Validate ctx (T_OpenAPI d) with Some err => Some (wrap err) | None =>
  let wrap := fmt_Errorf "invalid components: " in
  match Validate ctx (T_Components d) with Some err => Some (wrap err) | None =>
  let wrap := fmt_Errorf "invalid info: " in
  match
    match T_Info d with
    | Some v => match Validate ctx v with Some err => Some (wrap err) | None => None end
    | None => Some (wrap (errors_New "must be an object"))
    end
  with Some err => Some err | None =>
  let wrap := fmt_Errorf "invalid paths: " in
  match
    match T_Paths d with
    | Some v => match Paths_Validate ctx h v with Some err => Some (wrap err) | None => None end
    | None => Some (wrap (errors_New "must be an object"))
    end
  with Some err => Some err | None =>
  let wrap := fmt_Errorf "invalid security: " in
  match
    match T_Security d with
    | Some v => match Slice_Validate ctx v with Some err => Some (wrap err) | None => None end
    | None => None
    end
  with Some err => Some err | None =>
  let wrap := fmt_Errorf "invalid servers: " in
  match
    match T_Servers d with
    | Some v => match Slice_Validate ctx v with Some err => Some (wrap err) | None => None end
    | None => None
    end
  with Some err => Some err | None =>
  let wrap := fmt_Errorf "invalid tags: " in
  match
    match T_Tags d with
    | Some v => match Slice_Validate ctx v with Some err => Some (wrap err) | None => None end
    | None => None
    end
  with Some err => Some err | None =>
  let wrap := fmt_Errorf "invalid external docs: " in
  match
    match T_ExternalDocs d with
    | Some v => match Validate ctx v with Some err => Some (wrap err) | None => None end
    | None => None
    end
  with Some err => Some err | None =>
  None
  end end end end end end end end.

End Methods.

(** ** The validation order, as the specification words it

    Eight steps in a fixed order; each has a label, and finds either
    nothing or one error (a child validator's error, or the error made on
    the spot for a required field that is missing). *)

Inductive Step : Type :=
| openapi_step | components_step | info_step | paths_step
| security_step | servers_step | tags_step | externalDocs_step.

Definition steps : list Step :=
  [openapi_step; components_step; info_step; paths_step;
   security_step; servers_step; tags_step; externalDocs_step].

Definition label (s : Step) : string :=
  match s with
  | openapi_step => "invalid openapi value: "
  | components_step => "invalid components: "
  | info_step => "invalid info: "
  | paths_step => "invalid paths: "
  | security_step => "invalid security: "
  | servers_step => "invalid servers: "
  | tags_step => "invalid tags: "
  | externalDocs_step => "invalid external docs: "
  end.

Section Specification.
Context `{Collaborators}.

Definition finding (ctx : Ctx) (h : Heap) (d : T) (s : Step) : option error :=
  match s with
  | openapi_step =>
      if decide (T_OpenAPI d = "") then Some (errors_New "must be a non-empty string")
      else Version_Validate ctx (T_OpenAPI d)
  | components_step => Validate ctx (T_Components d)
  | info_step =>
      match T_Info d with
      | Some v => Validate ctx v
      | None => Some (errors_New "must be an object")
      end
  | paths_step =>
      match T_Paths d with
      | Some v => Paths_Validate ctx h v
      | None => Some (errors_New "must be an object")
      end
  | security_step => v ← T_Security d; Slice_Validate ctx v
  | servers_step => v ← T_Servers d; Slice_Validate ctx v
  | tags_step => v ← T_Tags d; Slice_Validate ctx v
  | externalDocs_step => v ← T_ExternalDocs d; Validate ctx v
  end.

(** The first step of [ss] that finds something, with what it found. *)
Fixpoint first_failure (ctx : Ctx) (h : Heap) (d : T) (ss : list Step)
    : option (Step * error) :=
  match ss with
  | [] => None
  | s :: rest =>
      match finding ctx h d s with
      | Some e => Some (s, e)
      | None => first_failure ctx h d rest
      end
  end.

(** Run the steps in order, stop at the first failure, attribute it. *)
Definition Validate_in_order (ctx : Ctx) (opts : list ValidationOption)
    (h : Heap) (d : T) : option error :=
  match first_failure (WithValidationOptions ctx opts) h d steps with
  | Some (s, e) => Some (fmt_Errorf (label s) e)
  | None => None
  end.

(** An optional field that is absent, or a collection that is present
    but holds nothing. *)
Definition blank (d : T) (s : Step) : Prop :=
  match s with
  | security_step => T_Security d = None \/ T_Security d = Some []
  | servers_step => T_Servers d = None \/ T_Servers d = Some []
  | tags_step => T_Tags d = None \/ T_Tags d = Some []
  | externalDocs_step => T_ExternalDocs d = None
  | _ => False
  end.

(** The operation pointer found under [path] and [method] of the document
    at [l], following the pointers of the heap. *)
Definition operation_at (h : Heap) (l : loc) (path method : string) : option ptr :=
  d ← h_docs h !! l;
  paths ← T_Paths d;
  m ← h_paths h !! paths;
  pathItem ← default None (m !! path);
  item ← h_items h !! pathItem;
  k ← Method_of_string method;
  pi_operations item !! k.

(** No dangling pointers: the map of a document and the path items of a
    map are allocated. *)
Definition closed (h : Heap) : Prop :=
  (forall l d paths, h_docs h !! l = Some d -> T_Paths d = Some paths ->
                     is_Some (h_paths h !! paths))
  /\ (forall paths m path pathItem,
        h_paths h !! paths = Some m -> m !! path = Some (Some pathItem) ->
        is_Some (h_items h !! pathItem)).

(** What is stored behind [operation], if anything, satisfies [P]. *)
Definition OperationHas (P : Operation -> Prop) (h : Heap) (operation : loc) : Prop :=
  forall o, h_ops h !! operation = Some o -> P o.

(** The path item behind [pathItem] carries [v] and each operation
    attached to it satisfies [P]. *)
Definition PathItemHas (v : uint64) (P : Operation -> Prop) (h : Heap)
    (pathItem : loc) : Prop :=
  forall item,
    h_items h !! pathItem = Some item ->
    pi_specMinorVersion item = v
    /\ forall method operation,
         pi_operations item !! method = Some (Some operation) ->
         OperationHas P h operation.

Definition PathsHave (v : uint64) (P : Operation -> Prop) (h : Heap)
    (paths : ptr) : Prop :=
  forall l m path pathItem,
    paths = Some l -> h_paths h !! l = Some m ->
    m !! path = Some (Some pathItem) -> PathItemHas v P h pathItem.

(** The operation behind [operation], when there is one, is stamped. *)
Definition OperationStamped (v : uint64) : Heap -> loc -> Prop :=
  OperationHas (Stamped v).

(** Every path item of the map behind [paths] carries [v], and so does
    every operation attached to one of them. *)
Definition PathsStamped (v : uint64) : Heap -> ptr -> Prop :=
  PathsHave v (Stamped v).

(** [h'] is [h] with some path items set to [v] and some operations
    replaced by ones that satisfy [P]; nothing else differs. *)
Definition Restamped (v : uint64) (P : Operation -> Prop) (h h' : Heap) : Prop :=
  h_docs h' = h_docs h
  /\ h_paths h' = h_paths h
  /\ (forall l, h_items h' !! l = h_items h !! l
                \/ exists item, h_items h !! l = Some item
                                /\ h_items h' !! l
                                   = Some (mkPathItem v (pi_operations item)))
  /\ (forall l, h_ops h' !! l = h_ops h !! l
                \/ exists o, h_ops h' !! l = Some o /\ P o).

(** One step of a loop over the entries of a map of pointers. *)
Definition each {A} (f : ptr -> Heap -> Heap) : A * ptr -> Heap -> Heap :=
  fun x acc => f (snd x) acc.

(** The operations of [h'] are those of [h], some of them stamped with
    [v] by their own method; none appears, disappears or changes
    otherwise. *)
Definition Stamping (v : uint64) (h h' : Heap) : Prop :=
  forall l, h_ops h' !! l = h_ops h !! l
            \/ exists o, h_ops h !! l = Some o
                         /\ h_ops h' !! l = Some (WithMinorOpenAPIVersion v o).

(** The root's own fields after propagation. *)
Definition stamp_fields (v : uint64) (d : T) : T :=
  mkT (T_OpenAPI d)
      (WithMinorOpenAPIVersion v (T_Components d))
      (Ptr_WithMinorOpenAPIVersion v (T_Info d))
      (T_Paths d)
      (Slice_WithMinorOpenAPIVersion v (T_Security d))
      (Slice_WithMinorOpenAPIVersion v (T_Servers d))
      (Slice_WithMinorOpenAPIVersion v (T_Tags d))
      (Ptr_WithMinorOpenAPIVersion v (T_ExternalDocs d))
      v.

(** The document at [l] and every node attached below it carry [v]. *)
Definition AllStamped (v : uint64) (h : Heap) (l : loc) : Prop :=
  exists d,
    h_docs h !! l = Some d
    /\ T_specMinorVersion d = v
    /\ Stamped v (T_Components d)
    /\ (forall x, T_Info d = Some x -> Stamped v x)
    /\ PathsStamped v h (T_Paths d)
    /\ (forall s x, T_Security d = Some s -> x ∈ s -> Stamped v x)
    /\ (forall s x, T_Servers d = Some s -> x ∈ s -> Stamped v x)
    /\ (forall s x, T_Tags d = Some s -> x ∈ s -> Stamped v x)
    /\ (forall x, T_ExternalDocs d = Some x -> Stamped v x).

(** Every operation attached to the document at [l] carries [v]. *)
Definition OperationsStamped (v : uint64) (h : Heap) (l : loc) : Prop :=
  forall path method operation,
    operation_at h l path method = Some (Some operation) ->
    OperationStamped v h operation.

(** No two paths of the document at [l] share a path item. *)
Definition items_unshared (h : Heap) (l : loc) : Prop :=
  forall d paths m path path' pathItem,
    h_docs h !! l = Some d -> T_Paths d = Some paths ->
    h_paths h !! paths = Some m ->
    m !! path = Some (Some pathItem) -> m !! path' = Some (Some pathItem) ->
    path = path'.

End Specification.

(** ** A sample instance of the collaborators

    Small stand-ins for the rest of the package, used to run the methods of
    [T] on concrete documents: every child node is a named record that is
    valid when its name is not empty. *)
Module Sample.

Inductive Option_ : Type := DisableExamplesValidation | AllowExtraSiblingFields.

Record Named := mkNamed { name : string; minor : uint64 }.

#[global] Instance Named_eq_dec : EqDecision Named.
Proof. solve_decision. Defined.

Definition Named_Node : Node (list Option_) Named := {|
  WithMinorOpenAPIVersion v a := mkNamed (name a) v;
  Validate _ a :=
    if decide (name a = "") then Some (errors_New "name must be a non-empty string")
    else None;
  Stamped v a := minor a = v
|}.

(** A component registry: a list of named components, empty by default. *)
Definition Registry_Node : Node (list Option_) (list Named) := {|
  WithMinorOpenAPIVersion v l := @WithMinorOpenAPIVersion _ _ Named_Node v <$> l;
  Validate ctx l := @Slice_Validate _ _ Named_Node ctx l;
  Stamped v l := Forall (fun a => minor a = v) l
|}.

Definition children : Children := {|
  Ctx := list Option_;
  ValidationOption := Option_;
  WithValidationOptions ctx opts := (ctx ++ opts)%list;
  Version_Validate _ v :=
    if String.prefix "3." v then None
    else Some (errors_New "must be 3.x.y");
  Version_Minor v :=
    match v with
    | String "3"%char (String "."%char (String c _)) => (Ascii.N_of_ascii c - 48)%N
    | _ => 0%N
    end;
  Components := list Named;
  Info := Named;
  SecurityRequirement := Named;
  Server := Named;
  Tag := Named;
  ExternalDocs := Named;
  Operation := Named;
  Components_Node := Registry_Node;
  Info_Node := Named_Node;
  SecurityRequirement_Node := Named_Node;
  Server_Node := Named_Node;
  Tag_Node := Named_Node;
  ExternalDocs_Node := Named_Node;
  Operation_Node := Named_Node
|}.

#[local] Existing Instance children.

Definition collaborators : Collaborators := {|
  Paths_Validate _ h l :=
    match h_paths h !! l with
    | Some m =>
        if forallb (fun kv => String.prefix "/" (fst kv)) (map_to_list m) then None
        else Some (errors_New "path must start with /")
    | None => None
    end;
  jsoninfo_UnmarshalStrictStruct data doc :=
    match data with
    | [] => mret (Some (errors_New "unexpected end of JSON input"))
    | _ => update_doc doc (set_OpenAPI (String.string_of_list_byte data));; mret None
    end
|}.

#[local] Existing Instance collaborators.

(** The zero value [T{}] and the heap that holds it at location 1. *)
Definition zero : T :=
  mkT "" [] None None None None None None 0%N.

Definition heap0 : Heap := mkHeap {[ 1%positive := zero ]} ∅ ∅ ∅.

(** A heap with one empty [Paths] map, at location 1. *)
Definition heap1 : Heap := mkHeap ∅ {[ 1%positive := ∅ ]} ∅ ∅.

(** The heap of a small document: the document [minimal] below at
    location 1, its empty endpoint collection and a detached operation. *)
Definition heap2 : Heap :=
  mkHeap {[ 1%positive :=
              mkT "3.0.0" [] (Some (mkNamed "Pet store" 0)) (Some 1%positive)
                  None None None None 3%N ]}
         {[ 1%positive := ∅ ]} ∅
         {[ 5%positive := mkNamed "listPets" 0; 6%positive := mkNamed "findPets" 0 ]}.

(** [heap2] after [AddOperation("/pets", "GET", op)] with the operation
    at location 5: a path item was allocated, the operation is attached
    and carries the document's stamp. *)
Definition heap3 : Heap :=
  mkHeap {[ 1%positive :=
              mkT "3.0.0" [] (Some (mkNamed "Pet store" 0)) (Some 1%positive)
                  None None None None 3%N ]}
         {[ 1%positive := {[ "/pets" := Some 1%positive ]} ]}
         {[ 1%positive := mkPathItem 0 {[ GET := Some 5%positive ]} ]}
         {[ 5%positive := mkNamed "listPets" 3; 6%positive := mkNamed "findPets" 0 ]}.

(** A version, a titled info block and an empty endpoint collection. *)
Definition minimal : T :=
  mkT "3.0.0" [] (Some (mkNamed "Pet store" 0)) (Some 1%positive)
       None None None None 0%N.

(** The same with an info block that has no title. *)
Definition untitled : T := set_Info (Some (mkNamed "" 0)) minimal.

(** A valid version, but neither info block nor endpoint collection. *)
Definition bare : T := set_OpenAPI "3.0.0" zero.

(** An info block but no endpoint collection. *)
Definition no_paths : T := set_Paths None minimal.

(** A server list with a nameless server. *)
Definition bad_server : T := set_Servers (Some [mkNamed "" 0]) minimal.

(** A heap whose document declares format-version 3.1.0 and has stamp 0. *)
Definition heap31 : Heap := mkHeap {[ 1%positive := set_OpenAPI "3.1.0" zero ]} ∅ ∅ ∅.

(** A document that carries minor version 3 throughout, and its heap. *)
Definition stamped : T :=
  mkT "3.0.0" [] (Some (mkNamed "Pet store" 3)) None None None None None 3%N.

Definition heap_stamped : Heap := mkHeap {[ 1%positive := stamped ]} ∅ ∅ ∅.

(** The three optional lists present and empty. *)
Definition blank_lists : T :=
  set_Security (Some []) (set_Servers (Some []) (set_Tags (Some []) minimal)).

End Sample.


(** ** Validation *)

Section ValidateProperties.
Context `{Collaborators}.
Implicit Types (ctx : Ctx) (opts : list ValidationOption) (h : Heap) (d : T).

(** The code and the worded algorithm agree on every document. *)
Lemma T_Validate_in_order ctx opts h d :
  T_Validate ctx opts h d = Validate_in_order ctx opts h d.
Proof.
  unfold T_Validate, Validate_in_order, steps; cbn [first_failure finding].
  case_decide; [done|].
  repeat (match goal with
          | |- context [match ?x with _ => _ end] =>
              lazymatch x with
              | context [match _ with _ => _ end] => fail
              | _ => destruct x eqn:?; cbn; try done
              end
          end).
Qed.

Lemma first_failure_finding ctx h d ss s e :
  first_failure ctx h d ss = Some (s, e) -> finding ctx h d s = Some e.
Proof.
  induction ss as [|s' ss IH]; cbn; [done|].
  destruct (finding ctx h d s') eqn:E; [|done].
  by intros [= <- <-].
Qed.

Lemma first_failure_none ctx h d ss :
  (forall s, s ∈ ss -> finding ctx h d s = None) -> first_failure ctx h d ss = None.
Proof.
  induction ss as [|s ss IH]; cbn; [done|]. intros Hall.
  rewrite (Hall s) by left. apply IH. intros s' Hs'. apply Hall. by right.
Qed.

Lemma blank_finding ctx h d s : blank d s -> finding ctx h d s = None.
Proof.
  destruct s; cbn; try done.
  all: try (intros [-> | ->]; done).
  by intros ->.
Qed.

Lemma label_inj s1 s2 : label s1 = label s2 -> s1 = s2.
Proof. by destruct s1, s2. Qed.

(** C2 (as amended): the steps run in the fixed order and the first failure
    is the one returned; a document with an invalid metadata block never
    gets the endpoint failure, and it gets the metadata failure, and only
    that one, when the format-version and the component registry pass. *)
Theorem Validate_fixed_order ctx opts h d :
  let ctx' := WithValidationOptions ctx opts in
  T_Validate ctx opts h d = Validate_in_order ctx opts h d
  /\ (forall e1, finding ctx' h d info_step = Some e1 ->
        (forall e, T_Validate ctx opts h d <> Some (fmt_Errorf (label paths_step) e))
        /\ (finding ctx' h d openapi_step = None ->
            finding ctx' h d components_step = None ->
            T_Validate ctx opts h d = Some (fmt_Errorf (label info_step) e1))).
Proof.
  intros ctx'. split; [apply T_Validate_in_order|].
  intros e1 Hinfo. rewrite T_Validate_in_order.
  unfold Validate_in_order, steps. fold ctx'.
  cbn [first_failure]. rewrite Hinfo. split.
  - intros e.
    destruct (finding ctx' h d openapi_step); [done|].
    by destruct (finding ctx' h d components_step).
  - by intros -> ->.
Qed.

(** C3: a document with an empty format-version string fails validation
    with the missing-value error attributed to the openapi field, whatever
    the version validator would say. *)
Theorem Validate_empty_openapi ctx opts h d :
  T_OpenAPI d = "" ->
  T_Validate ctx opts h d
  = Some (fmt_Errorf "invalid openapi value: "
            (errors_New "must be a non-empty string")).
Proof. intros Hempty. unfold T_Validate. by rewrite decide_True. Qed.

Lemma T_Validate_failure ctx opts h d err :
  T_Validate ctx opts h d = Some err ->
  exists s e,
    first_failure (WithValidationOptions ctx opts) h d steps = Some (s, e)
    /\ finding (WithValidationOptions ctx opts) h d s = Some e
    /\ err = fmt_Errorf (label s) e.
Proof.
  rewrite T_Validate_in_order. unfold Validate_in_order.
  destruct (first_failure _ h d steps) as [[s e]|] eqn:Hff; [|done].
  intros [= <-]. exists s, e. split_and!; try done.
  by eapply first_failure_finding.
Qed.


(** C5 (as amended): a document passes when its format-version is not empty
    and valid, its component registry passes, its metadata block and its
    endpoint collection are present and pass, and each optional field is
    absent or passes. *)
Theorem Validate_succeeds ctx opts h d i p :
  let ctx' := WithValidationOptions ctx opts in
  T_OpenAPI d <> "" ->
  Version_Validate ctx' (T_OpenAPI d) = None ->
  Validate ctx' (T_Components d) = None ->
  T_Info d = Some i -> Validate ctx' i = None ->
  T_Paths d = Some p -> Paths_Validate ctx' h p = None ->
  (forall s, s ∈ [security_step; servers_step; tags_step; externalDocs_step] ->
             finding ctx' h d s = None) ->
  T_Validate ctx opts h d = None.
Proof.
  intros ctx' Hne Hver Hcomp Hi Hiv Hp Hpv Hopt.
  rewrite T_Validate_in_order. unfold Validate_in_order. fold ctx'.
  rewrite first_failure_none; [done|].
  intros s Hs. unfold steps in Hs.
  destruct s; try (apply Hopt; rewrite !elem_of_cons; tauto); cbn.
  - by rewrite decide_False.
  - done.
  - by rewrite Hi.
  - by rewrite Hp.
Qed.

(** C6: a failure of Validate is never attributed to an optional field that
    is absent or to an optional list that is present and empty, and a
    document whose other fields pass is valid. *)
Theorem Validate_blank_optional ctx opts h d :
  (forall s e, blank d s ->
     T_Validate ctx opts h d <> Some (fmt_Errorf (label s) e))
  /\ ((forall s, blank d s \/ finding (WithValidationOptions ctx opts) h d s = None) ->
      T_Validate ctx opts h d = None).
Proof.
  split.
  - intros s e Hblank Hval.
    apply T_Validate_failure in Hval as (s' & e' & _ & Hf & [= Hl _]).
    apply label_inj in Hl as ->.
    by rewrite (blank_finding _ _ _ _ Hblank) in Hf.
  - intros Hall. rewrite T_Validate_in_order. unfold Validate_in_order.
    rewrite first_failure_none; [done|].
    intros s _. destruct (Hall s) as [Hb|]; [|done]. by apply blank_finding.
Qed.

End ValidateProperties.

(** ** Running the heap primitives *)

Section HeapRuns.
Context `{Collaborators}.
Implicit Types (h : Heap) (d : T) (l : loc).

Lemma bind_run {A B} (m : M A) (k : A -> M B) h :
  (m ≫= k) h = match m h with Some (a, h') => k a h' | None => None end.
Proof. reflexivity. Qed.

Lemma load_doc_run l d h : h_docs h !! l = Some d -> load_doc (Some l) h = Some (d, h).
Proof. intros Hl. unfold load_doc. by rewrite Hl. Qed.

Lemma update_doc_run l d f h :
  h_docs h !! l = Some d ->
  update_doc (Some l) f h = Some (tt, with_docs (insert l (f d)) h).
Proof. intros Hl. unfold update_doc. rewrite bind_run, (load_doc_run _ _ _ Hl). done. Qed.

Lemma ret_run {A} (a : A) h : (mret a : M A) h = Some (a, h).
Proof. reflexivity. Qed.

Lemma modify_run f h : modify f h = Some (tt, f h).
Proof. reflexivity. Qed.

Lemma make_Paths_run h :
  make_Paths h
  = Some (Some (fresh (dom (h_paths h))), with_paths (insert (fresh (dom (h_paths h))) ∅) h).
Proof. reflexivity. Qed.

Lemma index_Paths_run paths m path h :
  h_paths h !! paths = Some m ->
  index_Paths (Some paths) path h = Some (default None (m !! path), h).
Proof. intros Hm. unfold index_Paths. by rewrite Hm. Qed.

Lemma assign_Paths_run paths m path pathItem h :
  h_paths h !! paths = Some m ->
  assign_Paths (Some paths) path pathItem h
  = Some (tt, with_paths (insert paths (<[path := pathItem]> m)) h).
Proof. intros Hm. unfold assign_Paths. by rewrite Hm. Qed.

Lemma new_PathItem_run h :
  new_PathItem h
  = Some (Some (fresh (dom (h_items h))),
          with_items (insert (fresh (dom (h_items h))) (mkPathItem 0 ∅)) h).
Proof. reflexivity. Qed.

Lemma SetOperation_run pathItem item method k operation h :
  Method_of_string method = Some k ->
  h_items h !! pathItem = Some item ->
  PathItem_SetOperation (Some pathItem) method operation h
  = Some (tt, with_items
                (insert pathItem
                   (mkPathItem (pi_specMinorVersion item)
                      (<[k := operation]> (pi_operations item)))) h).
Proof. intros Hk Hi. unfold PathItem_SetOperation. by rewrite Hk, Hi. Qed.

(** A method string outside the known set makes [SetOperation] panic. *)
Lemma SetOperation_unknown pathItem method operation h :
  Method_of_string method = None ->
  PathItem_SetOperation pathItem method operation h = None.
Proof. intros Hk. unfold PathItem_SetOperation. by rewrite Hk. Qed.

Lemma Method_of_string_name method k :
  Method_of_string method = Some k -> method = Method_name k.
Proof.
  unfold Method_of_string. repeat case_decide; intros [= <-]; by subst.
Qed.

Lemma Method_of_string_inj method method' k :
  Method_of_string method = Some k -> Method_of_string method' = Some k ->
  method = method'.
Proof. intros ->%Method_of_string_name ->%Method_of_string_name. done. Qed.

Lemma with_docs_with_docs f g h : with_docs f (with_docs g h) = with_docs (f ∘ g) h.
Proof. done. Qed.

End HeapRuns.

(** Resolve a lookup in a heap that was built by the primitives. *)
Ltac heap_lookup :=
  cbn [h_docs h_paths h_items h_ops with_docs with_paths with_items with_ops];
  first [ eassumption
        | apply lookup_insert_eq
        | rewrite lookup_insert_ne by done; eassumption ].

Ltac heap_norm :=
  unfold with_docs, with_paths, with_items, with_ops;
  cbn [h_docs h_paths h_items h_ops pi_specMinorVersion pi_operations
       T_specMinorVersion set_Paths].

Ltac fields_norm :=
  cbn [T_OpenAPI T_Components T_Info T_Paths T_Security T_Servers T_Tags
       T_ExternalDocs T_specMinorVersion
       set_OpenAPI set_Components set_Info set_Paths set_Security set_Servers
       set_Tags set_ExternalDocs set_specMinorVersion].

(** Run the next primitive of a method body. *)
Ltac run_step :=
  first [ rewrite bind_run
        | rewrite ret_run
        | rewrite modify_run
        | rewrite make_Paths_run
        | rewrite new_PathItem_run
        | erewrite load_doc_run by heap_lookup
        | erewrite update_doc_run by heap_lookup
        | erewrite index_Paths_run by heap_lookup
        | erewrite assign_Paths_run by heap_lookup
        | erewrite SetOperation_run by heap_lookup ];
  cbv beta iota.

(** ** Decoding, appending a server, the nil receiver *)

Section SmallMethods.
Context `{Collaborators}.
Implicit Types (h : Heap) (d : T) (l : loc).

(** C1: what the code does after a successful decode: nothing.  The
    document is left as the decoder filled it, so its stamp is not set from
    the format-version string. *)
Theorem UnmarshalJSON_success_skips_propagation doc data h h' :
  jsoninfo_UnmarshalStrictStruct data doc h = Some (None, h') ->
  T_UnmarshalJSON doc data h = Some (None, h').
Proof. intros Hdec. unfold T_UnmarshalJSON. by rewrite bind_run, Hdec. Qed.

(** A nil document makes the two mutation helpers panic: the receiver is
    dereferenced by their first statement. *)
Lemma AddOperation_nil path method operation h :
  T_AddOperation None path method operation h = None.
Proof. reflexivity. Qed.

Lemma AddServer_nil server h : T_AddServer None server h = None.
Proof. reflexivity. Qed.

(** C9: AddServer on a live document returns normally.  Afterwards the
    server list read from the document is the former list with the server
    after it: one element longer, the former servers at their indices in
    their order, the new server last.  An absent list counts as empty and
    nothing is compared with the new server; the other fields of the
    document are as before.  This is about the list of the receiver:
    nothing is said of another slice sharing its backing array. *)
Theorem AddServer_appends l d server h :
  h_docs h !! l = Some d ->
  exists h1 d1 servers1,
    T_AddServer (Some l) server h = Some (tt, h1)
    /\ h_docs h1 !! l = Some d1
    /\ T_Servers d1 = Some servers1
    /\ servers1 = (default [] (T_Servers d) ++ [server])%list
    /\ length servers1 = S (length (default [] (T_Servers d)))
    /\ (forall i s, default [] (T_Servers d) !! i = Some s -> servers1 !! i = Some s)
    /\ servers1 !! length (default [] (T_Servers d)) = Some server
    /\ T_OpenAPI d1 = T_OpenAPI d
    /\ T_Components d1 = T_Components d
    /\ T_Info d1 = T_Info d
    /\ T_Paths d1 = T_Paths d
    /\ T_Security d1 = T_Security d
    /\ T_Tags d1 = T_Tags d
    /\ T_ExternalDocs d1 = T_ExternalDocs d
    /\ T_specMinorVersion d1 = T_specMinorVersion d.
Proof.
  intros Hl. eexists _, _, _.
  split; [unfold T_AddServer; by rewrite (update_doc_run _ _ _ _ Hl)|].
  split; [cbn; apply lookup_insert_eq|].
  cbn. split_and!; try done.
  - rewrite length_app. cbn. lia.
  - intros i s Hi. by apply lookup_app_l_Some.
  - by rewrite list_lookup_middle.
Qed.

(** C10: on a nil document WithMinorOpenAPIVersion returns nil and leaves
    the heap alone. *)
Theorem WithMinorOpenAPIVersion_nil v h :
  T_WithMinorOpenAPIVersion None v h = Some (None, h).
Proof. reflexivity. Qed.

End SmallMethods.

(** ** AddOperation *)

Section AddOperation.
Context `{Collaborators}.
Implicit Types (h : Heap) (d : T) (l : loc).

Lemma closed_paths h l d paths :
  closed h -> h_docs h !! l = Some d -> T_Paths d = Some paths ->
  exists m, h_paths h !! paths = Some m.
Proof. intros [Hc _] Hl Hp. by destruct (Hc _ _ _ Hl Hp) as [m ?]; exists m. Qed.

Lemma closed_items h paths m path pathItem :
  closed h -> h_paths h !! paths = Some m -> m !! path = Some (Some pathItem) ->
  exists item, h_items h !! pathItem = Some item.
Proof. intros [_ Hc] Hm Hp. by destruct (Hc _ _ _ _ Hm Hp) as [x ?]; exists x. Qed.

(** The run of [AddOperation] when the document has no endpoint
    collection yet: a map and a path item are allocated. *)
Lemma AddOperation_run_nil l d path method k operation h :
  Method_of_string method = Some k ->
  h_docs h !! l = Some d -> T_Paths d = None ->
  let paths := fresh (dom (h_paths h)) in
  let pathItem := fresh (dom (h_items h)) in
  T_AddOperation (Some l) path method operation h
  = Some (tt,
          Operation_WithMinorOpenAPIVersion (T_specMinorVersion d) operation
            (mkHeap (<[l := set_Paths (Some paths) d]> (h_docs h))
                    (<[paths := {[ path := Some pathItem ]}]> (h_paths h))
                    (<[pathItem := mkPathItem 0 {[ k := operation ]}]> (h_items h))
                    (h_ops h))).
Proof.
  intros Hk Hl Hp paths pathItem. unfold T_AddOperation.
  run_step. run_step. rewrite Hp. repeat run_step.
  rewrite lookup_empty. cbn [default]. repeat run_step.
  heap_norm. by rewrite !insert_insert_eq, !insert_empty.
Qed.

(** The run when the document has its map but the path has no item. *)
Lemma AddOperation_run_new_item l d paths m path method k operation h :
  Method_of_string method = Some k ->
  h_docs h !! l = Some d -> T_Paths d = Some paths ->
  h_paths h !! paths = Some m -> default None (m !! path) = None ->
  let pathItem := fresh (dom (h_items h)) in
  T_AddOperation (Some l) path method operation h
  = Some (tt,
          Operation_WithMinorOpenAPIVersion (T_specMinorVersion d) operation
            (mkHeap (h_docs h)
                    (<[paths := <[path := Some pathItem]> m]> (h_paths h))
                    (<[pathItem := mkPathItem 0 {[ k := operation ]}]> (h_items h))
                    (h_ops h))).
Proof.
  intros Hk Hl Hp Hm Hpath pathItem. unfold T_AddOperation.
  run_step. run_step. rewrite Hp. repeat run_step. rewrite Hpath. repeat run_step.
  heap_norm. by rewrite !insert_insert_eq, !insert_empty.
Qed.

(** The run when the path already has its item. *)
Lemma AddOperation_run_item l d paths m path pathItem item method k operation h :
  Method_of_string method = Some k ->
  h_docs h !! l = Some d -> T_Paths d = Some paths ->
  h_paths h !! paths = Some m -> m !! path = Some (Some pathItem) ->
  h_items h !! pathItem = Some item ->
  T_AddOperation (Some l) path method operation h
  = Some (tt,
          Operation_WithMinorOpenAPIVersion (T_specMinorVersion d) operation
            (with_items
               (insert pathItem
                  (mkPathItem (pi_specMinorVersion item)
                     (<[k := operation]> (pi_operations item)))) h)).
Proof.
  intros Hk Hl Hp Hm Hpath Hitem. unfold T_AddOperation.
  run_step. run_step. rewrite Hp. repeat run_step. rewrite Hpath. cbn [default id].
  repeat run_step. done.
Qed.

(** A method string outside the known set: the call panics, whatever the
    document and the heap. *)
Lemma AddOperation_unknown_method doc path method operation h :
  Method_of_string method = None ->
  T_AddOperation doc path method operation h = None.
Proof.
  intros Hk. unfold T_AddOperation.
  rewrite bind_run. destruct (load_doc doc h) as [[d h1]|]; [|done].
  rewrite bind_run. destruct (_ h1) as [[paths h2]|]; [|done].
  rewrite bind_run. destruct (index_Paths paths path h2) as [[pathItem h3]|]; [|done].
  rewrite bind_run. destruct (_ h3) as [[pathItem' h4]|]; [|done].
  by rewrite bind_run, SetOperation_unknown.
Qed.

Lemma AddOperation_returns_known doc path method operation h r :
  T_AddOperation doc path method operation h = Some r ->
  exists k, Method_of_string method = Some k.
Proof.
  destruct (Method_of_string method) as [k|] eqn:Hk; [eauto|].
  by rewrite AddOperation_unknown_method.
Qed.

Lemma Operation_With_docs v operation h :
  h_docs (Operation_WithMinorOpenAPIVersion v operation h) = h_docs h.
Proof. by destruct operation. Qed.

Lemma Operation_With_paths v operation h :
  h_paths (Operation_WithMinorOpenAPIVersion v operation h) = h_paths h.
Proof. by destruct operation. Qed.

Lemma Operation_With_items v operation h :
  h_items (Operation_WithMinorOpenAPIVersion v operation h) = h_items h.
Proof. by destruct operation. Qed.

Lemma Operation_With_ops v operation h l :
  h_ops (Operation_WithMinorOpenAPIVersion v (Some operation) h) !! l
  = if decide (operation = l) then WithMinorOpenAPIVersion v <$> h_ops h !! operation
    else h_ops h !! l.
Proof. cbn. apply lookup_alter. Qed.

Lemma set_Paths_id d paths : T_Paths d = paths -> set_Paths paths d = d.
Proof. destruct d; cbn. by intros ->. Qed.

Lemma closed_ext h h' :
  h_docs h' = h_docs h -> h_paths h' = h_paths h -> h_items h' = h_items h ->
  closed h -> closed h'.
Proof. unfold closed. by intros -> -> ->. Qed.

Lemma operation_at_ext h h' l path method :
  h_docs h' = h_docs h -> h_paths h' = h_paths h -> h_items h' = h_items h ->
  operation_at h' l path method = operation_at h l path method.
Proof. unfold operation_at. by intros -> -> ->. Qed.

(** A method string other than [method] names another key, or none. *)
Lemma other_key_insert (ops : gmap Method ptr) method method' k operation :
  Method_of_string method = Some k -> method' <> method ->
  (k' ← Method_of_string method'; <[k := operation]> ops !! k')
  = (k' ← Method_of_string method'; ops !! k').
Proof.
  intros Hk Hne. destruct (Method_of_string method') as [k'|] eqn:Hk'; cbn; [|done].
  apply lookup_insert_ne. intros <-. apply Hne.
  exact (Method_of_string_inj _ _ _ Hk' Hk).
Qed.

Lemma other_key_singleton method method' k (operation : ptr) :
  Method_of_string method = Some k -> method' <> method ->
  (k' ← Method_of_string method'; ({[ k := operation ]} : gmap Method ptr) !! k') = None.
Proof.
  intros Hk Hne. destruct (Method_of_string method') as [k'|] eqn:Hk'; cbn; [|done].
  apply lookup_singleton_ne. intros <-. apply Hne.
  exact (Method_of_string_inj _ _ _ Hk' Hk).
Qed.

(** What one call establishes: the chain of pointers from the document to
    the operation, in a heap that is closed again. *)
Lemma AddOperation_chain l d path method k operation h :
  Method_of_string method = Some k ->
  closed h -> h_docs h !! l = Some d ->
  exists h1 paths m1 pathItem item1,
    T_AddOperation (Some l) path method operation h = Some (tt, h1)
    /\ closed h1
    /\ h_docs h1 !! l = Some (set_Paths (Some paths) d)
    /\ h_paths h1 !! paths = Some m1
    /\ m1 !! path = Some (Some pathItem)
    /\ h_items h1 !! pathItem = Some item1
    /\ pi_operations item1 !! k = Some operation
    /\ h_ops h1
       = h_ops (Operation_WithMinorOpenAPIVersion (T_specMinorVersion d) operation h)
    /\ (forall method', method' <> method ->
          operation_at h1 l path method' = operation_at h l path method')
    /\ (forall paths', T_Paths d = Some paths' ->
          paths' = paths /\ h_docs h1 = h_docs h
          /\ forall m pathItem',
               h_paths h !! paths = Some m -> m !! path = Some (Some pathItem') ->
               pathItem' = pathItem /\ h_paths h1 = h_paths h
               /\ dom (h_items h1) = dom (h_items h)).
Proof.
  intros Hk Hc Hl.
  destruct (T_Paths d) as [paths|] eqn:Hp.
  - destruct (closed_paths _ _ _ _ Hc Hl Hp) as [m Hm].
    destruct (default None (m !! path)) as [pathItem|] eqn:Hpath.
    + assert (m !! path = Some (Some pathItem)) as Hpath'.
      { destruct (m !! path) as [[?|]|]; cbn in Hpath; congruence. }
      destruct (closed_items _ _ _ _ _ Hc Hm Hpath') as [item Hitem].
      eexists _, paths, m, pathItem, _.
      split; [by eapply AddOperation_run_item|].
      rewrite Operation_With_docs, Operation_With_paths, Operation_With_items.
      set (h0 := with_items _ h). split_and!.
      * apply (closed_ext h0); [by destruct operation..|].
        destruct Hc as [Hc1 Hc2]. split; [exact Hc1|].
        intros ps m' p' pi' Hm' Hp'. cbn.
        destruct (Hc2 _ _ _ _ Hm' Hp') as [x Hx].
        rewrite lookup_insert. case_decide; eauto.
      * cbn. by rewrite (set_Paths_id _ _ Hp).
      * exact Hm.
      * exact Hpath'.
      * cbn. apply lookup_insert_eq.
      * cbn. apply lookup_insert_eq.
      * by destruct operation.
      * intros method' Hne.
        rewrite (operation_at_ext h0) by (by destruct operation).
        unfold operation_at, h0. cbn. rewrite Hl. cbn. rewrite Hp. cbn.
        rewrite Hm. cbn. rewrite Hpath'. cbn.
        rewrite lookup_insert_eq, Hitem. cbn. by apply (other_key_insert _ method).
      * intros ? [= <-]. split_and!; [done..|].
        intros m0 pi' Hm0 Hp0. simplify_eq. split_and!; [done..|].
        cbn. apply dom_insert_lookup_L. eauto.
    + eexists _, paths, _, _, _.
      split; [by eapply AddOperation_run_new_item|].
      rewrite Operation_With_docs, Operation_With_paths, Operation_With_items.
      cbn [h_docs h_paths h_items]. split_and!.
      * eapply closed_ext; [apply Operation_With_docs|apply Operation_With_paths
                           |apply Operation_With_items|].
        destruct Hc as [Hc1 Hc2]. split; cbn.
        -- intros l' d' ps Hl' Hps. destruct (Hc1 _ _ _ Hl' Hps).
           rewrite lookup_insert. case_decide; eauto.
        -- intros ps m' p' pi'. rewrite lookup_insert. case_decide.
           ++ intros [= <-]. rewrite (lookup_insert m). case_decide.
              ** intros [= <-]. rewrite lookup_insert_eq. eauto.
              ** intros Hold. destruct (Hc2 _ _ _ _ Hm Hold).
                 rewrite (lookup_insert (h_items h)). case_decide; eauto.
           ++ intros Hm' Hold. destruct (Hc2 _ _ _ _ Hm' Hold).
              rewrite (lookup_insert (h_items h)). case_decide; eauto.
      * by rewrite (set_Paths_id _ _ Hp).
      * apply lookup_insert_eq.
      * apply lookup_insert_eq.
      * apply lookup_insert_eq.
      * cbn. apply lookup_singleton_eq.
      * by destruct operation.
      * intros method' Hne.
        erewrite operation_at_ext;
          [|apply Operation_With_docs|apply Operation_With_paths
           |apply Operation_With_items].
        unfold operation_at. cbn. rewrite Hl. cbn. rewrite Hp. cbn.
        rewrite Hm, lookup_insert_eq. cbn. rewrite lookup_insert_eq, Hpath. cbn.
        rewrite lookup_insert_eq. cbn. by apply (other_key_singleton method).
      * intros ? [= <-]. split_and!; [done..|].
        intros m0 pi' Hm0 Hp0. simplify_eq. by rewrite Hp0 in Hpath.
  - eexists _, _, _, _, _.
    split; [by eapply AddOperation_run_nil|].
    rewrite Operation_With_docs, Operation_With_paths, Operation_With_items.
    cbn [h_docs h_paths h_items]. split_and!.
    + eapply closed_ext; [apply Operation_With_docs|apply Operation_With_paths
                         |apply Operation_With_items|].
      destruct Hc as [Hc1 Hc2]. split; cbn.
      * intros l' d' ps. rewrite lookup_insert. case_decide.
        -- intros [= <-]. cbn. intros [= <-]. rewrite lookup_insert_eq. eauto.
        -- intros Hl' Hps. destruct (Hc1 _ _ _ Hl' Hps).
           rewrite (lookup_insert (h_paths h)). case_decide; eauto.
      * intros ps m' p' pi'. rewrite lookup_insert. case_decide.
        -- intros [= <-]. intros [-> [= <-]]%lookup_singleton_Some.
           rewrite lookup_insert_eq. eauto.
        -- intros Hm' Hold. destruct (Hc2 _ _ _ _ Hm' Hold).
           rewrite (lookup_insert (h_items h)). case_decide; eauto.
    + apply lookup_insert_eq.
    + apply lookup_insert_eq.
    + apply lookup_singleton_eq.
    + apply lookup_insert_eq.
    + cbn. apply lookup_singleton_eq.
    + by destruct operation.
    + intros method' Hne.
      erewrite operation_at_ext;
        [|apply Operation_With_docs|apply Operation_With_paths
         |apply Operation_With_items].
      unfold operation_at. cbn. rewrite Hl, lookup_insert_eq. cbn. rewrite Hp. cbn.
      rewrite lookup_insert_eq. cbn. rewrite lookup_singleton_eq. cbn.
      rewrite lookup_insert_eq. cbn. by apply (other_key_singleton method).
    + done.
Qed.

Lemma operation_at_chain h l d paths m path pathItem item method :
  h_docs h !! l = Some d -> T_Paths d = Some paths ->
  h_paths h !! paths = Some m -> m !! path = Some (Some pathItem) ->
  h_items h !! pathItem = Some item ->
  operation_at h l path method
  = (k ← Method_of_string method; pi_operations item !! k).
Proof.
  intros Hl Hp Hm Hpath Hitem. unfold operation_at.
  rewrite Hl. cbn. rewrite Hp. cbn. rewrite Hm. cbn. rewrite Hpath. cbn.
  by rewrite Hitem.
Qed.

Lemma operation_at_slot h l d paths m path pathItem item method k :
  Method_of_string method = Some k ->
  h_docs h !! l = Some d -> T_Paths d = Some paths ->
  h_paths h !! paths = Some m -> m !! path = Some (Some pathItem) ->
  h_items h !! pathItem = Some item ->
  operation_at h l path method = pi_operations item !! k.
Proof.
  intros Hk Hl Hp Hm Hpath Hitem.
  rewrite (operation_at_chain _ _ _ _ _ _ _ _ _ Hl Hp Hm Hpath Hitem). by rewrite Hk.
Qed.

Lemma with_items_id h (f : gmap loc PathItem -> gmap loc PathItem) :
  f (h_items h) = h_items h -> with_items f h = h.
Proof. destruct h; unfold with_items; cbn. by intros ->. Qed.

Lemma with_ops_id h (f : gmap loc Operation -> gmap loc Operation) :
  f (h_ops h) = h_ops h -> with_ops f h = h.
Proof. destruct h; unfold with_ops; cbn. by intros ->. Qed.

(** C8 (as amended): for a method of the known set, AddOperation on a live
    document returns normally and leaves no dangling pointer; afterwards the
    operation is the one found under the path and method, the map and the
    path item that were there are the ones still used, the other methods of
    the path keep their operation, and the operation carries the stamp of
    the document.  A second call for the same path and method allocates
    nothing, leaves the second operation in the slot, and changes nothing
    at all when it attaches the same operation again. *)
Theorem AddOperation_upserts `{!ChildrenLaws} l d path method k operation h :
  Method_of_string method = Some k ->
  closed h -> h_docs h !! l = Some d ->
  exists h1,
    T_AddOperation (Some l) path method operation h = Some (tt, h1)
    /\ closed h1
    /\ operation_at h1 l path method = Some operation
    /\ (forall paths, T_Paths d = Some paths ->
          h_docs h1 = h_docs h
          /\ forall m pathItem,
               h_paths h !! paths = Some m -> m !! path = Some (Some pathItem) ->
               h_paths h1 = h_paths h /\ dom (h_items h1) = dom (h_items h))
    /\ (forall method', method' <> method ->
          operation_at h1 l path method' = operation_at h l path method')
    /\ (forall ol o, operation = Some ol -> h_ops h !! ol = Some o ->
          h_ops h1 !! ol = Some (WithMinorOpenAPIVersion (T_specMinorVersion d) o)
          /\ OperationStamped (T_specMinorVersion d) h1 ol)
    /\ (exists d1, h_docs h1 !! l = Some d1
                   /\ T_specMinorVersion d1 = T_specMinorVersion d)
    /\ forall operation2, exists h2,
         T_AddOperation (Some l) path method operation2 h1 = Some (tt, h2)
         /\ h_docs h2 = h_docs h1 /\ h_paths h2 = h_paths h1
         /\ dom (h_items h2) = dom (h_items h1)
         /\ operation_at h2 l path method = Some operation2
         /\ (operation2 = operation -> h2 = h1).
Proof.
  intros Hk Hc Hl.
  destruct (AddOperation_chain l d path method k operation h Hk Hc Hl)
    as (h1 & paths & m1 & pathItem & item1 & Hrun & Hc1 & Hl1 & Hm1 & Hpath1
        & Hitem1 & Hop1 & Hops & Hother & Hkeep).
  exists h1. split_and!.
  - exact Hrun.
  - exact Hc1.
  - by erewrite operation_at_slot.
  - intros paths' Hp. destruct (Hkeep _ Hp) as (-> & Hdocs & Hitems).
    split; [done|]. intros m pathItem' Hm Hpath.
    by destruct (Hitems _ _ Hm Hpath) as (_ & ? & ?).
  - exact Hother.
  - intros ol o -> Ho.
    assert (h_ops h1 !! ol = Some (WithMinorOpenAPIVersion (T_specMinorVersion d) o))
      as Hstamped.
    { rewrite Hops, Operation_With_ops, decide_True, Ho by done. done. }
    split; [done|]. intros o'. rewrite Hstamped. intros [= <-]. apply stamp_Stamped.
  - by eexists.
  - intros operation2.
    destruct (AddOperation_chain l _ path method k operation2 h1 Hk Hc1 Hl1)
      as (h2 & paths2 & m2 & pathItem2 & item2 & Hrun2 & Hc2 & Hl2 & Hm2 & Hpath2
          & Hitem2 & Hop2 & Hops2 & _ & Hkeep2).
    destruct (Hkeep2 paths eq_refl) as (<- & Hdocs2 & Hitems2).
    destruct (Hitems2 _ _ Hm1 Hpath1) as (<- & Hpaths2 & Hdom2).
    exists h2. split_and!; try done.
    + by erewrite operation_at_slot.
    + intros ->.
      rewrite (AddOperation_run_item _ _ _ _ _ _ _ _ _ _ _ Hk Hl1 eq_refl Hm1 Hpath1 Hitem1)
        in Hrun2.
      injection Hrun2 as <-. cbn [T_specMinorVersion set_Paths].
      rewrite (with_items_id h1).
      2:{ rewrite (insert_id (pi_operations item1)) by done.
          apply insert_id. by destruct item1. }
      destruct operation as [ol|]; [|done]. cbn.
      apply with_ops_id, alter_id. intros o'.
      change (h_ops h1) with (h_ops h1). rewrite Hops. cbn.
      rewrite lookup_alter_eq. intros (o & _ & ->)%fmap_Some.
      apply stamp_idem.
Qed.

End AddOperation.

(** ** Version propagation *)

Section Propagation.
Context `{Collaborators}.
Implicit Types (h : Heap) (d : T) (l : loc).

Section Restamping.
Context (v : uint64) (P : Operation -> Prop).
Hypothesis HP : forall o, P (WithMinorOpenAPIVersion v o).

Lemma Restamped_refl h : Restamped v P h h.
Proof. split_and!; auto. Qed.

Lemma Restamped_trans h1 h2 h3 :
  Restamped v P h1 h2 -> Restamped v P h2 h3 -> Restamped v P h1 h3.
Proof.
  intros (Hd & Hp & Hi & Ho) (Hd' & Hp' & Hi' & Ho').
  split_and!; [congruence..| |].
  - intros l. destruct (Hi' l) as [->|(item & Hitem & ->)]; [done|].
    destruct (Hi l) as [<-|(item0 & ? & Heq)]; [eauto|].
    right. exists item0. split; [done|]. rewrite Heq in Hitem. by simplify_eq.
  - intros l. destruct (Ho' l) as [->|?]; [done|]. by right.
Qed.

Lemma foldr_steps {X} (step : X -> Heap -> Heap) (Done : X -> Heap -> Prop) :
  (forall x h, Restamped v P h (step x h)) ->
  (forall x h, Done x (step x h)) ->
  (forall x h h', Restamped v P h h' -> Done x h -> Done x h') ->
  forall xs h,
    Restamped v P h (foldr step h xs)
    /\ forall x, x ∈ xs -> Done x (foldr step h xs).
Proof.
  intros Hstep Hdone Hmono xs h. induction xs as [|x xs [IHR IHD]]; cbn.
  - split; [apply Restamped_refl|]. by intros x ?%elem_of_nil.
  - split; [eapply Restamped_trans; [exact IHR|apply Hstep]|].
    intros y [->|Hy]%elem_of_cons; [apply Hdone|].
    eapply Hmono; [apply Hstep|]. by apply IHD.
Qed.

Lemma Operation_With_Restamped operation h :
  Restamped v P h (Operation_WithMinorOpenAPIVersion v operation h).
Proof.
  destruct operation as [ol|]; [|apply Restamped_refl].
  split_and!; try done; [by left|].
  intros l. rewrite Operation_With_ops. case_decide as Hl; [|by left]. subst l.
  destruct (h_ops h !! ol) as [o|]; [|by left]. right. eexists. split; [done|]. apply HP.
Qed.

Lemma Operation_With_Has ol h :
  OperationHas P (Operation_WithMinorOpenAPIVersion v (Some ol) h) ol.
Proof.
  intros o. rewrite Operation_With_ops, decide_True by done.
  intros (o0 & _ & ->)%fmap_Some. apply HP.
Qed.

Lemma OperationHas_mono h h' ol :
  Restamped v P h h' -> OperationHas P h ol -> OperationHas P h' ol.
Proof.
  intros (_ & _ & _ & Ho) Hhas o Hlook.
  destruct (Ho ol) as [Heq|(o' & Heq & ?)]; rewrite Heq in Hlook.
  - by apply Hhas.
  - by simplify_eq.
Qed.

Lemma PathItemHas_mono h h' il :
  Restamped v P h h' -> PathItemHas v P h il -> PathItemHas v P h' il.
Proof.
  intros HR Hhas item' Hlook. pose proof HR as (_ & _ & Hi & _).
  destruct (Hi il) as [Heq|(item & Hitem & Heq)]; rewrite Heq in Hlook.
  - destruct (Hhas _ Hlook) as [? Hops]. split; [done|].
    intros method ol Hm. eapply OperationHas_mono; [done|]. by eapply Hops.
  - simplify_eq. cbn. destruct (Hhas _ Hitem) as [? Hops]. split; [done|].
    intros method ol Hm. eapply OperationHas_mono; [done|]. by eapply Hops.
Qed.

Lemma map_fold_each `{Countable K} (f : ptr -> Heap -> Heap) (m : gmap K ptr) h :
  map_fold (fun _ p acc => f p acc) h m = foldr (each f) h (map_to_list m).
Proof.
  rewrite map_fold_foldr.
  induction (map_to_list m) as [|[k p] xs IH]; cbn; [done|]. by rewrite IH.
Qed.

Lemma PathItem_With_cases pathItem h :
  PathItem_WithMinorOpenAPIVersion v pathItem h = h
  \/ exists il item,
       pathItem = Some il /\ h_items h !! il = Some item
       /\ PathItem_WithMinorOpenAPIVersion v pathItem h
          = foldr (each (Operation_WithMinorOpenAPIVersion v))
                  (with_items (insert il (mkPathItem v (pi_operations item))) h)
                  (map_to_list (pi_operations item)).
Proof.
  destruct pathItem as [il|]; [|by left]. cbn.
  destruct (h_items h !! il) as [item|] eqn:Hitem; [|by left].
  right. exists il, item. by rewrite map_fold_each.
Qed.

Lemma operations_fold (ops : gmap Method ptr) h :
  let h' := foldr (each (Operation_WithMinorOpenAPIVersion v)) h (map_to_list ops) in
  Restamped v P h h'
  /\ forall method ol, ops !! method = Some (Some ol) -> OperationHas P h' ol.
Proof.
  intros h'.
  destruct (foldr_steps (each (Operation_WithMinorOpenAPIVersion v))
              (fun (x : Method * ptr) h =>
                 match snd x with
                 | Some ol => OperationHas P h ol
                 | None => True
                 end)) with (xs := map_to_list ops) (h := h) as [HR HD].
  - intros x h0. apply Operation_With_Restamped.
  - intros [k [ol|]] h0; [|done]. apply Operation_With_Has.
  - intros [k [ol|]] h1 h2; [|done]. apply OperationHas_mono.
  - split; [exact HR|]. intros method ol Hm.
    apply (HD (method, Some ol)). by apply elem_of_map_to_list.
Qed.

Lemma PathItem_With_Restamped pathItem h :
  Restamped v P h (PathItem_WithMinorOpenAPIVersion v pathItem h).
Proof.
  destruct (PathItem_With_cases pathItem h) as [->|(il & item & -> & Hitem & ->)];
    [apply Restamped_refl|].
  eapply Restamped_trans; [|apply operations_fold].
  split_and!; try done; [|by left].
  intros l. cbn. rewrite lookup_insert. case_decide; [|by left].
  subst. right. by exists item.
Qed.

Lemma PathItem_With_Has il h :
  PathItemHas v P (PathItem_WithMinorOpenAPIVersion v (Some il) h) il.
Proof.
  cbn. destruct (h_items h !! il) as [item|] eqn:Hitem.
  2:{ intros item'. by rewrite Hitem. }
  rewrite map_fold_each.
  destruct (operations_fold (pi_operations item)
              (with_items (insert il (mkPathItem v (pi_operations item))) h))
    as [(_ & _ & Hi & _) Hops].
  intros item' Hlook.
  destruct (Hi il) as [Hsame|(item0 & Hitem0 & Hnew)];
    rewrite ?Hsame, ?Hnew in Hlook; cbn in *; rewrite lookup_insert_eq in *;
    simplify_eq; cbn; (split; [done|]); intros method ol Hm; by eapply Hops.
Qed.

Lemma Paths_With_Restamped paths h :
  Restamped v P h (Paths_WithMinorOpenAPIVersion v paths h).
Proof.
  destruct paths as [l|]; [|apply Restamped_refl]. cbn.
  destruct (h_paths h !! l) as [m|]; [|apply Restamped_refl].
  rewrite map_fold_each.
  apply (foldr_steps (X := string * ptr)
           (each (PathItem_WithMinorOpenAPIVersion v)) (fun _ _ => True));
    [|done..].
  intros x h0. apply PathItem_With_Restamped.
Qed.

Lemma Paths_With_Have paths h :
  PathsHave v P (Paths_WithMinorOpenAPIVersion v paths h) paths.
Proof.
  intros l m path il -> Hm Hpath.
  pose proof (Paths_With_Restamped (Some l) h) as (_ & Hp & _).
  rewrite Hp in Hm. cbn. rewrite Hm, map_fold_each.
  destruct (foldr_steps (each (PathItem_WithMinorOpenAPIVersion v))
              (fun (x : string * ptr) h =>
                 match snd x with
                 | Some il => PathItemHas v P h il
                 | None => True
                 end)) with (xs := map_to_list m) (h := h) as [_ HD].
  - intros x h0. apply PathItem_With_Restamped.
  - intros [k [il'|]] h0; [|done]. apply PathItem_With_Has.
  - intros [k [il'|]] h1 h2; [|done]. apply PathItemHas_mono.
  - apply (HD (path, Some il)). by apply elem_of_map_to_list.
Qed.

End Restamping.

Section Commutation.
Context (v : uint64) (f : gmap loc T -> gmap loc T).

Lemma foldr_with_docs {X} (step : X -> Heap -> Heap) xs h :
  (forall x h, step x (with_docs f h) = with_docs f (step x h)) ->
  foldr step (with_docs f h) xs = with_docs f (foldr step h xs).
Proof. intros Hstep. induction xs as [|x xs IH]; cbn; [done|]. by rewrite IH, Hstep. Qed.

Lemma Operation_With_with_docs operation h :
  Operation_WithMinorOpenAPIVersion v operation (with_docs f h)
  = with_docs f (Operation_WithMinorOpenAPIVersion v operation h).
Proof. by destruct operation. Qed.

Lemma PathItem_With_with_docs pathItem h :
  PathItem_WithMinorOpenAPIVersion v pathItem (with_docs f h)
  = with_docs f (PathItem_WithMinorOpenAPIVersion v pathItem h).
Proof.
  destruct pathItem as [il|]; [|done]. cbn.
  destruct (h_items h !! il) as [item|]; [|done].
  rewrite !map_fold_each.
  change (with_items ?g (with_docs f h)) with (with_docs f (with_items g h)).
  apply foldr_with_docs.
  intros x h0. apply Operation_With_with_docs.
Qed.

Lemma Paths_With_with_docs paths h :
  Paths_WithMinorOpenAPIVersion v paths (with_docs f h)
  = with_docs f (Paths_WithMinorOpenAPIVersion v paths h).
Proof.
  destruct paths as [l|]; [|done]. cbn.
  destruct (h_paths h !! l) as [m|]; [|done].
  rewrite !map_fold_each. apply foldr_with_docs.
  intros x h0. apply PathItem_With_with_docs.
Qed.

End Commutation.

(** The run of propagation on a live document: the root's fields are
    stamped in the record, the path items and operations in the heap. *)
Lemma WithMinorOpenAPIVersion_run l d v h :
  h_docs h !! l = Some d ->
  T_WithMinorOpenAPIVersion (Some l) v h
  = Some (Some l,
          with_docs (insert l (stamp_fields v d))
            (Paths_WithMinorOpenAPIVersion v (T_Paths d) h)).
Proof.
  intros Hl. unfold T_WithMinorOpenAPIVersion.
  repeat run_step.
  rewrite !Paths_With_with_docs. repeat run_step.
  rewrite !with_docs_with_docs. f_equal. f_equal.
  fields_norm. unfold with_docs, compose. f_equal.
  by rewrite !insert_insert_eq.
Qed.

(** Stamping a heap in which everything reachable is left unchanged by
    the stamp changes nothing. *)
Lemma foldr_fixed {X} (step : X -> Heap -> Heap) xs h :
  (forall x, x ∈ xs -> step x h = h) -> foldr step h xs = h.
Proof.
  induction xs as [|x xs IH]; cbn; [done|]. intros Hfix.
  rewrite IH by (intros y Hy; apply Hfix; by right). apply Hfix. by left.
Qed.

Lemma PathItem_With_fixed v il h :
  PathItemHas v (fun o => WithMinorOpenAPIVersion v o = o) h il ->
  PathItem_WithMinorOpenAPIVersion v (Some il) h = h.
Proof.
  intros Hhas. cbn. destruct (h_items h !! il) as [item|] eqn:Hitem; [|done].
  destruct (Hhas item Hitem) as [Hv Hops]. rewrite map_fold_each.
  rewrite (with_items_id h).
  2:{ apply insert_id. rewrite Hitem. f_equal. destruct item; cbn in *. by subst. }
  apply foldr_fixed. intros [method [ol|]] Hin; [|done].
  apply elem_of_map_to_list in Hin. unfold each; cbn.
  apply with_ops_id, alter_id. intros o Ho. by apply (Hops method ol Hin o Ho).
Qed.

Lemma Paths_With_fixed v paths h :
  PathsHave v (fun o => WithMinorOpenAPIVersion v o = o) h paths ->
  Paths_WithMinorOpenAPIVersion v paths h = h.
Proof.
  intros Hhave. destruct paths as [l|]; [|done]. cbn.
  destruct (h_paths h !! l) as [m|] eqn:Hm; [|done].
  rewrite map_fold_each. apply foldr_fixed. intros [path [il|]] Hin; [|done].
  apply elem_of_map_to_list in Hin. unfold each; cbn [snd].
  apply PathItem_With_fixed. by eapply Hhave.
Qed.

Lemma stamp_fields_idem `{!ChildrenLaws} v d :
  stamp_fields v (stamp_fields v d) = stamp_fields v d.
Proof.
  unfold stamp_fields; cbn. f_equal.
  - apply stamp_idem.
  - destruct (T_Info d); cbn; [|done]. by rewrite stamp_idem.
  - destruct (T_Security d) as [s|]; cbn; [|done]. f_equal.
    rewrite <-list_fmap_compose. apply list_fmap_ext. intros ? x _. apply stamp_idem.
  - destruct (T_Servers d) as [s|]; cbn; [|done]. f_equal.
    rewrite <-list_fmap_compose. apply list_fmap_ext. intros ? x _. apply stamp_idem.
  - destruct (T_Tags d) as [s|]; cbn; [|done]. f_equal.
    rewrite <-list_fmap_compose. apply list_fmap_ext. intros ? x _. apply stamp_idem.
  - destruct (T_ExternalDocs d); cbn; [|done]. by rewrite stamp_idem.
Qed.

Lemma Slice_With_Stamped `{!ChildrenLaws} {A} `{!Node Ctx A, !NodeLaws A} v
    (s : option (list A)) s' x :
  Slice_WithMinorOpenAPIVersion v s = Some s' -> x ∈ s' -> Stamped v x.
Proof.
  destruct s as [xs|]; cbn; [|done]. intros [= <-].
  intros (y & -> & _)%list_elem_of_fmap. apply stamp_Stamped.
Qed.

Lemma Ptr_With_Stamped {A} `{!Node Ctx A, !NodeLaws A} v (p : option A) x :
  Ptr_WithMinorOpenAPIVersion v p = Some x -> Stamped v x.
Proof. destruct p; cbn; [|done]. intros [= <-]. apply stamp_Stamped. Qed.

Lemma operation_at_inv h l path method operation :
  operation_at h l path method = Some operation ->
  exists d paths m pathItem item k,
    h_docs h !! l = Some d /\ T_Paths d = Some paths
    /\ h_paths h !! paths = Some m /\ m !! path = Some (Some pathItem)
    /\ h_items h !! pathItem = Some item
    /\ Method_of_string method = Some k
    /\ pi_operations item !! k = Some operation.
Proof.
  unfold operation_at. intros Hat.
  destruct (h_docs h !! l) as [d|] eqn:Hl; [|done]. cbn in Hat.
  destruct (T_Paths d) as [paths|] eqn:Hp; [|done]. cbn in Hat.
  destruct (h_paths h !! paths) as [m|] eqn:Hm; [|done]. cbn in Hat.
  destruct (m !! path) as [[pathItem|]|] eqn:Hpath; [|done..]. cbn in Hat.
  destruct (h_items h !! pathItem) as [item|] eqn:Hitem; [|done]. cbn in Hat.
  destruct (Method_of_string method) as [k|] eqn:Hk; [|done]. cbn in Hat.
  by exists d, paths, m, pathItem, item, k.
Qed.

Lemma operation_at_eq h l path method :
  operation_at h l path method
  = match h_docs h !! l with
    | Some d =>
        match T_Paths d with
        | Some paths =>
            match h_paths h !! paths with
            | Some m =>
                match m !! path with
                | Some (Some pathItem) =>
                    match h_items h !! pathItem with
                    | Some item => k ← Method_of_string method; pi_operations item !! k
                    | None => None
                    end
                | _ => None
                end
            | None => None
            end
        | None => None
        end
    | None => None
    end.
Proof.
  unfold operation_at. destruct (h_docs h !! l) as [d|]; [|done]. cbn.
  destruct (T_Paths d) as [paths|]; [|done]. cbn.
  destruct (h_paths h !! paths) as [m|]; [|done]. cbn.
  destruct (m !! path) as [[pathItem|]|]; [|done..]. cbn.
  by destruct (h_items h !! pathItem).
Qed.

(** The path items after propagation hold the operations they held. *)
Lemma Paths_With_items v paths h il :
  pi_operations <$> h_items (Paths_WithMinorOpenAPIVersion v paths h) !! il
  = pi_operations <$> h_items h !! il.
Proof.
  destruct (Paths_With_Restamped v (fun _ => True) (fun _ => I) paths h)
    as (_ & _ & Hi & _).
  destruct (Hi il) as [->|(item & -> & ->)]; done.
Qed.

Section Exact.
Context `{!ChildrenLaws} (v : uint64).

Lemma Stamping_refl h : Stamping v h h.
Proof. intros l. by left. Qed.

Lemma Stamping_trans h1 h2 h3 :
  Stamping v h1 h2 -> Stamping v h2 h3 -> Stamping v h1 h3.
Proof.
  intros H12 H23 l. destruct (H23 l) as [->|(o2 & Ho2 & ->)]; [apply H12|].
  destruct (H12 l) as [Heq|(o1 & Ho1 & Heq)]; rewrite Heq in Ho2.
  - right. by exists o2.
  - injection Ho2 as <-. right. exists o1. split; [done|]. by rewrite stamp_idem.
Qed.

Lemma foldr_Stamping {X} (step : X -> Heap -> Heap) :
  (forall x h, Stamping v h (step x h)) ->
  forall xs h, Stamping v h (foldr step h xs).
Proof.
  intros Hstep xs h. induction xs as [|x xs IH]; cbn; [apply Stamping_refl|].
  eapply Stamping_trans; [exact IH|apply Hstep].
Qed.

Lemma Operation_With_Stamping operation h :
  Stamping v h (Operation_WithMinorOpenAPIVersion v operation h).
Proof.
  destruct operation as [ol|]; [|apply Stamping_refl].
  intros l. rewrite Operation_With_ops. case_decide as Hl; [|by left]. subst l.
  destruct (h_ops h !! ol) as [o|]; [|by left]. right. by exists o.
Qed.

Lemma PathItem_With_Stamping pathItem h :
  Stamping v h (PathItem_WithMinorOpenAPIVersion v pathItem h).
Proof.
  destruct (PathItem_With_cases v pathItem h) as [->|(il & item & -> & Hitem & ->)];
    [apply Stamping_refl|].
  apply (foldr_Stamping (each (Operation_WithMinorOpenAPIVersion v))
           (fun x h0 => Operation_With_Stamping (snd x) h0)
           (map_to_list (pi_operations item))
           (with_items (insert il (mkPathItem v (pi_operations item))) h)).
Qed.

Lemma Paths_With_Stamping paths h :
  Stamping v h (Paths_WithMinorOpenAPIVersion v paths h).
Proof.
  destruct paths as [l|]; [|apply Stamping_refl]. cbn.
  destruct (h_paths h !! l) as [m|]; [|apply Stamping_refl].
  rewrite map_fold_each. apply foldr_Stamping.
  intros x h0. apply PathItem_With_Stamping.
Qed.

(** What propagation does to a path item of the map and to the operations
    attached to it: the item gets the stamp and keeps its operations, each
    operation becomes what its own method makes of it. *)
Lemma Paths_With_attached paths m path il item h :
  h_paths h !! paths = Some m -> m !! path = Some (Some il) ->
  h_items h !! il = Some item ->
  h_items (Paths_WithMinorOpenAPIVersion v (Some paths) h) !! il
  = Some (mkPathItem v (pi_operations item))
  /\ forall k ol o,
       pi_operations item !! k = Some (Some ol) -> h_ops h !! ol = Some o ->
       h_ops (Paths_WithMinorOpenAPIVersion v (Some paths) h) !! ol
       = Some (WithMinorOpenAPIVersion v o).
Proof.
  intros Hm Hpath Hitem.
  set (P := fun o : Operation => WithMinorOpenAPIVersion v o = o).
  pose proof (Paths_With_Restamped v P (stamp_idem v) (Some paths) h)
    as (_ & Hsame & Hitems & _).
  pose proof (Paths_With_Have v P (stamp_idem v) (Some paths) h) as Hhave.
  pose proof (Paths_With_Stamping (Some paths) h) as Hst.
  set (hp := Paths_WithMinorOpenAPIVersion v (Some paths) h) in *.
  assert (h_paths hp !! paths = Some m) as Hm' by (by rewrite Hsame).
  assert (h_items hp !! il = Some (mkPathItem v (pi_operations item))) as Hitem'.
  { destruct (Hitems il) as [Heq|(item0 & Hitem0 & Heq)].
    - rewrite Hitem in Heq.
      destruct (Hhave paths m path il eq_refl Hm' Hpath item Heq) as [Hv _].
      rewrite Heq. f_equal. destruct item; cbn in *. by subst.
    - rewrite Hitem in Hitem0. by injection Hitem0 as <-. }
  split; [done|]. intros k ol o Hk Ho.
  destruct (Hhave paths m path il eq_refl Hm' Hpath _ Hitem') as [_ Hops].
  destruct (Hst ol) as [Heq|(o0 & Ho0 & Heq)].
  - rewrite Ho in Heq. rewrite Heq. f_equal. symmetry.
    exact (Hops k ol Hk o Heq).
  - rewrite Ho in Ho0. by injection Ho0 as <-.
Qed.

End Exact.

(** C7: on a live document WithMinorOpenAPIVersion returns the pointer it
    was called on.  Afterwards the root holds the version and each of its
    children is what the child's own method makes of it; the maps of paths
    are untouched, every path item of the document is still there with the
    version and its operations, every operation attached to one of them is
    what its own method makes of it, and every slot holds the pointer it
    held.  So the root and every node attached below it carry the version,
    among them the operations that were attached before the call, by
    AddOperation or otherwise; a second call with the same version leaves
    the heap as the first one left it. *)
Theorem WithMinorOpenAPIVersion_propagates `{!ChildrenLaws} l d v h :
  h_docs h !! l = Some d ->
  exists h',
    T_WithMinorOpenAPIVersion (Some l) v h = Some (Some l, h')
    /\ h_docs h' !! l = Some (stamp_fields v d)
    /\ h_paths h' = h_paths h
    /\ (forall paths m path pathItem item,
          T_Paths d = Some paths -> h_paths h !! paths = Some m ->
          m !! path = Some (Some pathItem) -> h_items h !! pathItem = Some item ->
          h_items h' !! pathItem = Some (mkPathItem v (pi_operations item))
          /\ forall k operation o,
               pi_operations item !! k = Some (Some operation) ->
               h_ops h !! operation = Some o ->
               h_ops h' !! operation = Some (WithMinorOpenAPIVersion v o))
    /\ (forall path method,
          operation_at h' l path method = operation_at h l path method)
    /\ AllStamped v h' l
    /\ (forall path method ol,
          operation_at h l path method = Some (Some ol) ->
          OperationStamped v h' ol
          /\ forall o, h_ops h !! ol = Some o ->
                       h_ops h' !! ol = Some (WithMinorOpenAPIVersion v o))
    /\ (forall h0 path method ol,
          closed h0 ->
          T_AddOperation (Some l) path method (Some ol) h0 = Some (tt, h) ->
          operation_at h' l path method = Some (Some ol)
          /\ OperationStamped v h' ol
          /\ forall o, h_ops h !! ol = Some o ->
                       h_ops h' !! ol = Some (WithMinorOpenAPIVersion v o))
    /\ T_WithMinorOpenAPIVersion (Some l) v h' = Some (Some l, h').
Proof.
  intros Hl. eexists. split; [by apply WithMinorOpenAPIVersion_run|].
  set (hp := Paths_WithMinorOpenAPIVersion v (T_Paths d) h).
  assert (PathsStamped v hp (T_Paths d)) as Hpaths.
  { apply Paths_With_Have. apply stamp_Stamped. }
  destruct (Paths_With_Restamped v (fun _ => True) (fun _ => I) (T_Paths d) h)
    as (_ & Hsame & _ & _). fold hp in Hsame.
  assert (forall paths m path pathItem item,
            T_Paths d = Some paths -> h_paths h !! paths = Some m ->
            m !! path = Some (Some pathItem) -> h_items h !! pathItem = Some item ->
            h_items hp !! pathItem = Some (mkPathItem v (pi_operations item))
            /\ forall k operation o,
                 pi_operations item !! k = Some (Some operation) ->
                 h_ops h !! operation = Some o ->
                 h_ops hp !! operation = Some (WithMinorOpenAPIVersion v o))
    as Hexact.
  { intros paths m path pathItem item Hp. unfold hp. rewrite Hp.
    apply Paths_With_attached. }
  assert (forall path method,
            operation_at (with_docs (insert l (stamp_fields v d)) hp) l path method
            = operation_at h l path method) as Hslots.
  { intros path method. rewrite !operation_at_eq.
    cbn [h_docs h_paths h_items with_docs]. rewrite lookup_insert_eq, Hl.
    cbn [T_Paths stamp_fields]. destruct (T_Paths d) as [paths|] eqn:Hp; [|done].
    rewrite Hsame. destruct (h_paths h !! paths) as [m|]; [|done].
    destruct (m !! path) as [[il|]|]; [|done..].
    pose proof (Paths_With_items v (Some paths) h il) as Hops. fold hp in Hops.
    destruct (h_items hp !! il) as [item'|], (h_items h !! il) as [item|];
      cbn in Hops; try done. by injection Hops as ->. }
  assert (forall path method ol,
            operation_at h l path method = Some (Some ol) ->
            OperationStamped v hp ol
            /\ forall o, h_ops h !! ol = Some o ->
                         h_ops hp !! ol = Some (WithMinorOpenAPIVersion v o)) as Hpre.
  { intros path method ol
      (d' & paths & m & pathItem & item & k & Hl' & Hp & Hm & Hpath & Hitem & Hk & Hop)
        %operation_at_inv.
    rewrite Hl in Hl'. injection Hl' as <-.
    destruct (Hexact _ _ _ _ _ Hp Hm Hpath Hitem) as [Hitem' Hops].
    rewrite <-Hsame in Hm. split.
    - eapply (Hpaths paths m path pathItem Hp Hm Hpath _ Hitem'). exact Hop.
    - intros o Ho. by eapply Hops. }
  split_and!.
  - cbn. apply lookup_insert_eq.
  - exact Hsame.
  - exact Hexact.
  - exact Hslots.
  - exists (stamp_fields v d). split_and!.
    + cbn. apply lookup_insert_eq.
    + done.
    + cbn. apply stamp_Stamped.
    + intros x. apply Ptr_With_Stamped.
    + exact Hpaths.
    + intros s x. apply Slice_With_Stamped.
    + intros s x. apply Slice_With_Stamped.
    + intros s x. apply Slice_With_Stamped.
    + intros x. apply Ptr_With_Stamped.
  - exact Hpre.
  - intros h0 path method ol Hc0 Hrun.
    assert (exists d0, h_docs h0 !! l = Some d0) as [d0 Hl0].
    { unfold T_AddOperation in Hrun. rewrite bind_run in Hrun. unfold load_doc in Hrun.
      destruct (h_docs h0 !! l); [eauto|done]. }
    destruct (AddOperation_returns_known _ _ _ _ _ _ Hrun) as [k Hk].
    destruct (AddOperation_chain l d0 path method k (Some ol) h0 Hk Hc0 Hl0)
      as (h1 & paths & m1 & pathItem & item1 & Hrun' & _ & Hl1 & Hm1 & Hpath1
          & Hitem1 & Hop1 & _).
    rewrite Hrun in Hrun'. injection Hrun' as <-.
    assert (operation_at h l path method = Some (Some ol)) as Hat
      by (by erewrite operation_at_slot).
    split; [by rewrite Hslots|]. by apply (Hpre path method).
  - rewrite (WithMinorOpenAPIVersion_run _ (stamp_fields v d))
      by (cbn; apply lookup_insert_eq).
    rewrite stamp_fields_idem. cbn [T_Paths stamp_fields].
    rewrite Paths_With_with_docs, with_docs_with_docs.
    rewrite (Paths_With_fixed v (T_Paths d) hp).
    2:{ apply Paths_With_Have. apply stamp_idem. }
    do 2 f_equal. unfold with_docs, compose. f_equal. apply insert_insert_eq.
Qed.

End Propagation.

(** ** Decoding: the branch that does propagate *)

Section Decoding.
Context `{Collaborators}.

(** When decoding fails, propagation does run, with the minor version of
    whatever format-version the document then holds. *)
Lemma UnmarshalJSON_failure_propagates l d data e h h1 :
  jsoninfo_UnmarshalStrictStruct data (Some l) h = Some (Some e, h1) ->
  h_docs h1 !! l = Some d ->
  let v := Version_Minor (T_OpenAPI d) in
  T_UnmarshalJSON (Some l) data h
  = Some (Some e,
          with_docs (insert l (stamp_fields v d))
            (Paths_WithMinorOpenAPIVersion v (T_Paths d) h1)).
Proof.
  intros Hdec Hl v. unfold T_UnmarshalJSON. rewrite bind_run, Hdec.
  rewrite bind_run, (load_doc_run _ _ _ Hl), bind_run.
  by rewrite (WithMinorOpenAPIVersion_run _ _ _ _ Hl).
Qed.

End Decoding.

(** ** More on validation *)

Section ValidateMore.
Context `{Collaborators}.
Implicit Types (ctx : Ctx) (opts : list ValidationOption) (h : Heap) (d : T).

Lemma first_failure_None_inv ctx h d ss s :
  first_failure ctx h d ss = None -> s ∈ ss -> finding ctx h d s = None.
Proof.
  induction ss as [|s' ss IH]; cbn; [by intros _ ?%elem_of_nil|].
  destruct (finding ctx h d s') eqn:E; [done|].
  intros Hff [->|Hin]%elem_of_cons; auto.
Qed.

Lemma steps_all s : s ∈ steps.
Proof. unfold steps. destruct s; rewrite !elem_of_cons; tauto. Qed.

(** X1: Validate returns nil exactly when none of the eight steps finds
    anything. *)
Theorem Validate_nil_iff ctx opts h d :
  T_Validate ctx opts h d = None
  <-> forall s, finding (WithValidationOptions ctx opts) h d s = None.
Proof.
  rewrite T_Validate_in_order. unfold Validate_in_order. split.
  - destruct (first_failure _ h d steps) as [[s e]|] eqn:Hff; [done|].
    intros _ s. eapply first_failure_None_inv; [exact Hff|apply steps_all].
  - intros Hall. by rewrite first_failure_none.
Qed.

(** X2: with a valid format-version and a component registry that passes,
    a missing info block is reported as "invalid info: must be an object";
    with an info block that passes, a missing endpoint collection is
    reported as "invalid paths: must be an object". *)
Theorem Validate_missing_required ctx opts h d :
  let ctx' := WithValidationOptions ctx opts in
  T_OpenAPI d <> "" ->
  Version_Validate ctx' (T_OpenAPI d) = None ->
  Validate ctx' (T_Components d) = None ->
  (T_Info d = None ->
   T_Validate ctx opts h d
   = Some (fmt_Errorf "invalid info: " (errors_New "must be an object")))
  /\ (forall i, T_Info d = Some i -> Validate ctx' i = None -> T_Paths d = None ->
      T_Validate ctx opts h d
      = Some (fmt_Errorf "invalid paths: " (errors_New "must be an object"))).
Proof.
  intros ctx' Hne Hver Hcomp. unfold T_Validate. fold ctx'.
  rewrite decide_False by done. rewrite Hver, Hcomp. split.
  - by intros ->.
  - intros i -> -> ->. done.
Qed.

Lemma label_prefix s s' x : String.prefix (label s') (label s ++ x) = true -> s' = s.
Proof. destruct s, s'; cbn; first [done | discriminate]. Qed.

Lemma prefix_app a b : String.prefix a (a ++ b) = true.
Proof.
  induction a as [|c a IH]; [by destruct b|].
  change (String c a ++ b) with (String c (a ++ b)). cbn [String.prefix].
  destruct (Ascii.ascii_dec c c); [exact IH|done].
Qed.

(** X3: the text of an error of Validate starts with the label of the step
    that failed, and with the label of no other step: the message alone
    tells which field was at fault. *)
Theorem Validate_message_names_field ctx opts h d err :
  T_Validate ctx opts h d = Some err ->
  exists s e,
    first_failure (WithValidationOptions ctx opts) h d steps = Some (s, e)
    /\ Error err = label s ++ Error e
    /\ String.prefix (label s) (Error err) = true
    /\ forall s', String.prefix (label s') (Error err) = true -> s' = s.
Proof.
  intros (s & e & Hff & _ & ->)%T_Validate_failure.
  exists s, e. cbn [Error]. split_and!; [done..|apply prefix_app|].
  intros s'. apply label_prefix.
Qed.

(** X4: a failure attributed to the security list, the server list, the tag
    list or the external-docs link is only ever reported for a document
    whose four leading steps passed: the format-version is there and valid,
    the registry passes, info block and endpoint collection are present
    and pass. *)
Theorem Validate_optional_report ctx opts h d s e :
  let ctx' := WithValidationOptions ctx opts in
  T_Validate ctx opts h d = Some (fmt_Errorf (label s) e) ->
  s ∈ [security_step; servers_step; tags_step; externalDocs_step] ->
  T_OpenAPI d <> ""
  /\ Version_Validate ctx' (T_OpenAPI d) = None
  /\ Validate ctx' (T_Components d) = None
  /\ (exists i, T_Info d = Some i /\ Validate ctx' i = None)
  /\ (exists p, T_Paths d = Some p /\ Paths_Validate ctx' h p = None).
Proof.
  intros ctx' (s' & e' & Hff & _ & [= Hl _])%T_Validate_failure Hs.
  apply label_inj in Hl as <-. fold ctx' in Hff.
  assert (forall s0, s0 ∈ [security_step; servers_step; tags_step; externalDocs_step] ->
                     s0 <> openapi_step /\ s0 <> components_step
                     /\ s0 <> info_step /\ s0 <> paths_step) as Hopt.
  { intros s0 Hs0.
    repeat (apply elem_of_cons in Hs0 as [->|Hs0]; [by split_and!|]).
    by apply elem_of_nil in Hs0. }
  destruct (Hopt _ Hs) as (N1 & N2 & N3 & N4).
  unfold steps in Hff. cbn [first_failure] in Hff.
  destruct (finding ctx' h d openapi_step) eqn:E1; [by injection Hff as <- _|].
  destruct (finding ctx' h d components_step) eqn:E2; [by injection Hff as <- _|].
  destruct (finding ctx' h d info_step) eqn:E3; [by injection Hff as <- _|].
  destruct (finding ctx' h d paths_step) eqn:E4; [by injection Hff as <- _|].
  cbn [finding] in E1, E2, E3, E4.
  case_decide; [done|].
  destruct (T_Info d) as [i|]; [|done]. destruct (T_Paths d) as [p|]; [|done].
  split_and!; eauto.
Qed.

End ValidateMore.

(** ** More on decoding *)

Section DecodingMore.
Context `{Collaborators}.

Lemma load_doc_heap doc d h h' : load_doc doc h = Some (d, h') -> h' = h.
Proof.
  unfold load_doc. destruct doc as [l|]; [|done].
  destruct (h_docs h !! l); cbn; [|done]. by intros [= _ <-].
Qed.

(** X5: whenever UnmarshalJSON returns, what it returns is the decoder's
    own result, error or nil, and after a decode without error the heap is
    the one the decoder left. *)
Theorem UnmarshalJSON_returns_decoder_error doc data h r h' :
  T_UnmarshalJSON doc data h = Some (r, h') ->
  exists h1,
    jsoninfo_UnmarshalStrictStruct data doc h = Some (r, h1)
    /\ (r = None -> h' = h1).
Proof.
  unfold T_UnmarshalJSON. rewrite bind_run.
  destruct (jsoninfo_UnmarshalStrictStruct data doc h) as [[[e|] h1]|]; [| |done].
  - rewrite bind_run. destruct (load_doc doc h1) as [[d h2]|] eqn:Hload; [|done].
    apply load_doc_heap in Hload as ->. rewrite bind_run.
    destruct (T_WithMinorOpenAPIVersion doc _ h1) as [[p h3]|]; [|done].
    rewrite ret_run. intros [= <- <-]. by exists h1.
  - rewrite ret_run. intros [= <- <-]. by exists h1.
Qed.

(** X6: when the decoder reports an error and leaves a live document,
    UnmarshalJSON returns that error and the heap is the one that version
    propagation produces from the decoder's heap, for the minor version of
    the format-version string found in the document; the root's stamp is
    that minor version. *)
Theorem UnmarshalJSON_failure_stamps l d data e h h1 :
  jsoninfo_UnmarshalStrictStruct data (Some l) h = Some (Some e, h1) ->
  h_docs h1 !! l = Some d ->
  exists h2,
    T_WithMinorOpenAPIVersion (Some l) (Version_Minor (T_OpenAPI d)) h1
    = Some (Some l, h2)
    /\ T_UnmarshalJSON (Some l) data h = Some (Some e, h2)
    /\ (T_specMinorVersion <$> h_docs h2 !! l) = Some (Version_Minor (T_OpenAPI d)).
Proof.
  intros Hdec Hl. eexists. split; [by apply WithMinorOpenAPIVersion_run|]. split.
  - unfold T_UnmarshalJSON. rewrite bind_run, Hdec.
    rewrite bind_run, (load_doc_run _ _ _ Hl), bind_run.
    by rewrite (WithMinorOpenAPIVersion_run _ _ _ _ Hl).
  - cbn. by rewrite lookup_insert_eq.
Qed.

End DecodingMore.

(** ** More on AddOperation *)

Section AddOperationMore.
Context `{Collaborators}.
Implicit Types (h : Heap) (d : T) (l : loc).

(** The three shapes of the heap after a call. *)
Lemma AddOperation_result l d path method k operation h h1 :
  Method_of_string method = Some k ->
  closed h -> h_docs h !! l = Some d ->
  T_AddOperation (Some l) path method operation h = Some (tt, h1) ->
  let v := T_specMinorVersion d in
  (T_Paths d = None
   /\ h1 = Operation_WithMinorOpenAPIVersion v operation
             (mkHeap (<[l := set_Paths (Some (fresh (dom (h_paths h)))) d]> (h_docs h))
                     (<[fresh (dom (h_paths h)) :=
                          {[ path := Some (fresh (dom (h_items h))) ]}]> (h_paths h))
                     (<[fresh (dom (h_items h)) :=
                          mkPathItem 0 {[ k := operation ]}]> (h_items h))
                     (h_ops h)))
  \/ (exists paths m,
        T_Paths d = Some paths /\ h_paths h !! paths = Some m
        /\ default None (m !! path) = None
        /\ h1 = Operation_WithMinorOpenAPIVersion v operation
                  (mkHeap (h_docs h)
                          (<[paths := <[path := Some (fresh (dom (h_items h)))]> m]>
                             (h_paths h))
                          (<[fresh (dom (h_items h)) :=
                               mkPathItem 0 {[ k := operation ]}]> (h_items h))
                          (h_ops h)))
  \/ (exists paths m pathItem item,
        T_Paths d = Some paths /\ h_paths h !! paths = Some m
        /\ m !! path = Some (Some pathItem) /\ h_items h !! pathItem = Some item
        /\ h1 = Operation_WithMinorOpenAPIVersion v operation
                  (with_items
                     (insert pathItem
                        (mkPathItem (pi_specMinorVersion item)
                           (<[k := operation]> (pi_operations item)))) h)).
Proof.
  intros Hk Hc Hl Hrun v.
  destruct (T_Paths d) as [paths|] eqn:Hp.
  - destruct (closed_paths _ _ _ _ Hc Hl Hp) as [m Hm].
    destruct (default None (m !! path)) as [pathItem|] eqn:Hpath.
    + assert (m !! path = Some (Some pathItem)) as Hpath'.
      { destruct (m !! path) as [[?|]|]; cbn in Hpath; congruence. }
      destruct (closed_items _ _ _ _ _ Hc Hm Hpath') as [item Hitem].
      rewrite (AddOperation_run_item _ _ _ _ _ _ _ _ _ _ _ Hk Hl Hp Hm Hpath' Hitem) in Hrun.
      injection Hrun as <-. right. right. by exists paths, m, pathItem, item.
    + rewrite (AddOperation_run_new_item _ _ _ _ _ _ _ _ _ Hk Hl Hp Hm Hpath) in Hrun.
      injection Hrun as <-. right. left. by exists paths, m.
  - rewrite (AddOperation_run_nil _ _ _ _ _ _ _ Hk Hl Hp) in Hrun.
    injection Hrun as <-. by left.
Qed.

Lemma fresh_not_live {A} (m : gmap loc A) l x : m !! l = Some x -> l <> fresh (dom m).
Proof. intros Hl ->. apply (is_fresh (dom m)). by eapply elem_of_dom_2. Qed.

Lemma Operation_With_ops_dom v operation h :
  dom (h_ops (Operation_WithMinorOpenAPIVersion v operation h)) = dom (h_ops h).
Proof. destruct operation; [|done]. cbn. apply dom_alter_L. Qed.

Lemma Operation_With_ops_other v operation h ol :
  operation <> Some ol ->
  h_ops (Operation_WithMinorOpenAPIVersion v operation h) !! ol = h_ops h !! ol.
Proof.
  destruct operation as [ol'|]; [|done]. intros Hne. cbn.
  apply lookup_alter_ne. congruence.
Qed.

(** X7: what AddOperation leaves alone.  Of the document only the Paths
    field can change and no other document is written; no operation is
    allocated or removed and only the attached one is modified; the other
    entries of the endpoint collection, the path items of other paths and
    the other maps of the heap stay as they were. *)
Theorem AddOperation_frame l d path method operation h h1 :
  closed h -> h_docs h !! l = Some d ->
  T_AddOperation (Some l) path method operation h = Some (tt, h1) ->
  (exists paths, h_docs h1 = <[l := set_Paths (Some paths) d]> (h_docs h))
  /\ dom (h_ops h1) = dom (h_ops h)
  /\ (forall ol, operation <> Some ol -> h_ops h1 !! ol = h_ops h !! ol)
  /\ (forall il item,
        h_items h !! il = Some item ->
        (forall paths m, T_Paths d = Some paths -> h_paths h !! paths = Some m ->
                         m !! path <> Some (Some il)) ->
        h_items h1 !! il = Some item)
  /\ (forall paths m path',
        T_Paths d = Some paths -> h_paths h !! paths = Some m -> path' <> path ->
        exists m1, h_paths h1 !! paths = Some m1 /\ m1 !! path' = m !! path')
  /\ (forall pl m, T_Paths d <> Some pl -> h_paths h !! pl = Some m ->
                   h_paths h1 !! pl = Some m).
Proof.
  intros Hc Hl Hrun.
  destruct (AddOperation_returns_known _ _ _ _ _ _ Hrun) as [k Hk].
  destruct (AddOperation_result _ _ _ _ _ _ _ _ Hk Hc Hl Hrun)
    as [(Hp & ->)|[(paths & m & Hp & Hm & Hpath & ->)
                  |(paths & m & pathItem & item & Hp & Hm & Hpath & Hitem & ->)]];
    rewrite Operation_With_docs, Operation_With_ops_dom, Operation_With_paths,
      Operation_With_items;
    cbn [h_docs h_paths h_items h_ops with_items].
  - split_and!.
    + by eexists.
    + done.
    + intros ol Hne. by rewrite Operation_With_ops_other.
    + intros il item Hil _. rewrite lookup_insert_ne; [done|].
      apply not_eq_sym, (fresh_not_live _ _ _ Hil).
    + intros ? ? ? Hsome. by rewrite Hp in Hsome.
    + intros pl m _ Hpl. rewrite lookup_insert_ne; [done|].
      apply not_eq_sym, (fresh_not_live _ _ _ Hpl).
  - split_and!.
    + exists paths. by rewrite (set_Paths_id _ _ Hp), insert_id.
    + done.
    + intros ol Hne. by rewrite Operation_With_ops_other.
    + intros il item Hil _. rewrite lookup_insert_ne; [done|].
      apply not_eq_sym, (fresh_not_live _ _ _ Hil).
    + intros ? m0 path' Hsome Hm0 Hne. rewrite Hp in Hsome. injection Hsome as <-.
      rewrite Hm in Hm0. injection Hm0 as <-.
      eexists. split; [apply lookup_insert_eq|]. by rewrite lookup_insert_ne.
    + intros pl m0 Hne Hpl. rewrite lookup_insert_ne; [done|]. congruence.
  - split_and!.
    + exists paths. by rewrite (set_Paths_id _ _ Hp), insert_id.
    + done.
    + intros ol Hne. by rewrite Operation_With_ops_other.
    + intros il item0 Hil Hnot. rewrite lookup_insert_ne; [done|].
      intros <-. by apply (Hnot _ _ Hp Hm).
    + intros ? m0 path' Hsome Hm0 Hne. rewrite Hp in Hsome. injection Hsome as <-.
      rewrite Hm in Hm0. injection Hm0 as <-.
      by exists m.
    + by intros pl m0 _ Hpl.
Qed.

(** What a call does to the slots of the document: the slot it was called
    for aside, a slot changes only if its path shares the path item. *)
Lemma AddOperation_slots l d path method operation h h1 :
  closed h -> items_unshared h l -> h_docs h !! l = Some d ->
  T_AddOperation (Some l) path method operation h = Some (tt, h1) ->
  items_unshared h1 l
  /\ forall path' method',
       path' <> path \/ method' <> method ->
       operation_at h1 l path' method' = operation_at h l path' method'.
Proof.
  intros Hc Hun Hl Hrun.
  destruct (AddOperation_returns_known _ _ _ _ _ _ Hrun) as [k Hk].
  destruct (AddOperation_result _ _ _ _ _ _ _ _ Hk Hc Hl Hrun)
    as [(Hp & ->)|[(paths & m & Hp & Hm & Hpath & ->)
                  |(paths & m & pathItem & item & Hp & Hm & Hpath & Hitem & ->)]].
  - split.
    + intros d1 paths1 m1 p p' il. rewrite Operation_With_docs, Operation_With_paths.
      cbn [h_docs h_paths]. rewrite lookup_insert_eq. intros [= <-]. cbn.
      intros [= <-]. rewrite lookup_insert_eq. intros [= <-].
      intros [-> _]%lookup_singleton_Some [-> _]%lookup_singleton_Some. done.
    + intros path' method' Hne.
      erewrite operation_at_ext;
        [|apply Operation_With_docs|apply Operation_With_paths
         |apply Operation_With_items].
      rewrite !operation_at_eq. cbn [h_docs h_paths h_items].
      rewrite lookup_insert_eq, Hl, Hp. cbn [T_Paths set_Paths].
      rewrite lookup_insert_eq.
      destruct (decide (path' = path)) as [->|Hpne].
      * rewrite lookup_singleton_eq, lookup_insert_eq. cbn.
        apply (other_key_singleton method). { done. } by destruct Hne.
      * by rewrite lookup_singleton_ne.
  - assert (forall p il, m !! p = Some (Some il) -> il <> fresh (dom (h_items h)))
      as Hold.
    { intros p il Hpil. destruct (closed_items _ _ _ _ _ Hc Hm Hpil) as [x Hx].
      apply (fresh_not_live _ _ _ Hx). }
    split.
    + intros d1 paths1 m1 p p' il. rewrite Operation_With_docs, Operation_With_paths.
      cbn [h_docs h_paths]. rewrite Hl. intros [= <-]. rewrite Hp. intros [= <-].
      rewrite lookup_insert_eq. intros [= <-].
      rewrite !lookup_insert. repeat case_decide; subst; try done.
      * intros [= <-] Hp'. by destruct (Hold _ _ Hp').
      * intros Hp0 [= <-]. by destruct (Hold _ _ Hp0).
      * intros Hp0 Hp'. by eapply (Hun d paths m).
    + intros path' method' Hne.
      erewrite operation_at_ext;
        [|apply Operation_With_docs|apply Operation_With_paths
         |apply Operation_With_items].
      rewrite !operation_at_eq. cbn [h_docs h_paths h_items].
      rewrite Hl, Hp, Hm, lookup_insert_eq.
      destruct (decide (path' = path)) as [->|Hpne].
      * rewrite !lookup_insert_eq. cbn.
        destruct (m !! path) as [[?|]|]; cbn in Hpath; try done;
          (apply (other_key_singleton method); [done|by destruct Hne]).
      * rewrite lookup_insert_ne by done.
        destruct (m !! path') as [[il|]|] eqn:Hpil; try done.
        rewrite lookup_insert_ne; [done|]. intros Heq. by destruct (Hold _ _ Hpil).
  - split.
    + intros d1 paths1 m1 p p' il. rewrite Operation_With_docs, Operation_With_paths.
      cbn [h_docs h_paths with_items]. apply Hun.
    + intros path' method' Hne.
      erewrite operation_at_ext;
        [|apply Operation_With_docs|apply Operation_With_paths
         |apply Operation_With_items].
      rewrite !operation_at_eq. cbn [h_docs h_paths h_items with_items].
      rewrite Hl, Hp, Hm.
      destruct (m !! path') as [[il|]|] eqn:Hpil; try done.
      destruct (decide (il = pathItem)) as [->|Hine].
      * rewrite lookup_insert_eq, Hitem. cbn.
        assert (path' = path) as -> by (by eapply (Hun d paths m)).
        apply (other_key_insert _ method). { done. } by destruct Hne.
      * by rewrite lookup_insert_ne.
Qed.

(** X9: on a document whose paths each have a path item of their own,
    AddOperation puts the operation in the slot it is called for and
    changes no other slot; the heap has no dangling pointer afterwards and
    the paths still each have their own path item. *)
Theorem AddOperation_other_slots l d path method operation h h1 :
  closed h -> items_unshared h l -> h_docs h !! l = Some d ->
  T_AddOperation (Some l) path method operation h = Some (tt, h1) ->
  closed h1
  /\ items_unshared h1 l
  /\ operation_at h1 l path method = Some operation
  /\ forall path' method',
       path' <> path \/ method' <> method ->
       operation_at h1 l path' method' = operation_at h l path' method'.
Proof.
  intros Hc Hun Hl Hrun.
  destruct (AddOperation_returns_known _ _ _ _ _ _ Hrun) as [k Hk].
  destruct (AddOperation_chain l d path method k operation h Hk Hc Hl)
    as (h1' & paths & m1 & pathItem & item1 & Hrun' & Hc1 & Hl1 & Hm1 & Hpath1
        & Hitem1 & Hop1 & _).
  rewrite Hrun in Hrun'. injection Hrun' as <-.
  destruct (AddOperation_slots _ _ _ _ _ _ _ Hc Hun Hl Hrun) as [Hun1 Hframe].
  split_and!; [done..| |done]. by erewrite operation_at_slot.
Qed.


(** An operation attached after the call is the one just attached or was
    attached to the same slot before. *)
Lemma AddOperation_reachable l d path method operation h h1 path' method' ol :
  closed h -> h_docs h !! l = Some d ->
  T_AddOperation (Some l) path method operation h = Some (tt, h1) ->
  operation_at h1 l path' method' = Some (Some ol) ->
  operation = Some ol \/ operation_at h l path' method' = Some (Some ol).
Proof.
  intros Hc Hl Hrun.
  destruct (AddOperation_returns_known _ _ _ _ _ _ Hrun) as [k Hk].
  destruct (AddOperation_result _ _ _ _ _ _ _ _ Hk Hc Hl Hrun)
    as [(Hp & ->)|[(paths & m & Hp & Hm & Hpath & ->)
                  |(paths & m & pathItem & item & Hp & Hm & Hpath & Hitem & ->)]];
    (erewrite operation_at_ext;
       [|apply Operation_With_docs|apply Operation_With_paths
        |apply Operation_With_items]);
    rewrite !operation_at_eq; cbn [h_docs h_paths h_items with_items].
  - rewrite lookup_insert_eq. cbn [T_Paths set_Paths]. rewrite lookup_insert_eq.
    destruct (decide (path' = path)) as [->|Hpne].
    + rewrite lookup_singleton_eq, lookup_insert_eq. cbn.
      destruct (Method_of_string method') as [k'|]; cbn; [|done].
      intros [_ Hop]%lookup_singleton_Some. by left.
    + by rewrite lookup_singleton_ne.
  - rewrite Hl, Hp, Hm, lookup_insert_eq.
    destruct (decide (path' = path)) as [->|Hpne].
    + rewrite !lookup_insert_eq. cbn.
      destruct (Method_of_string method') as [k'|]; cbn; [|done].
      intros [_ Hop]%lookup_singleton_Some. by left.
    + rewrite lookup_insert_ne by done.
      destruct (m !! path') as [[il|]|] eqn:Hpil; try done.
      destruct (closed_items _ _ _ _ _ Hc Hm Hpil) as [x Hx].
      rewrite lookup_insert_ne by (apply not_eq_sym, (fresh_not_live _ _ _ Hx)).
      by right.
  - rewrite Hl, Hp, Hm.
    destruct (m !! path') as [[il|]|] eqn:Hpil; try done.
    destruct (decide (il = pathItem)) as [->|Hine].
    + rewrite lookup_insert_eq, Hitem. cbn.
      destruct (Method_of_string method') as [k'|]; cbn; [|done].
      destruct (decide (k' = k)) as [->|Hkne].
      * rewrite lookup_insert_eq. intros [= Hop]. by left.
      * rewrite lookup_insert_ne by done. by right.
    + rewrite lookup_insert_ne by done. by right.
Qed.

Lemma OperationHas_ext (P : Operation -> Prop) h h' ol :
  h_ops h' = h_ops h -> OperationHas P h ol -> OperationHas P h' ol.
Proof. unfold OperationHas. by intros ->. Qed.

(** X8: AddOperation keeps the operations of a document in step with its
    stamp: if every operation attached to the document carries the
    document's minor version before the call, the same holds after it,
    the new operation included. *)
Theorem AddOperation_keeps_operations_stamped `{!ChildrenLaws}
    l d path method operation h h1 :
  closed h -> h_docs h !! l = Some d ->
  OperationsStamped (T_specMinorVersion d) h l ->
  T_AddOperation (Some l) path method operation h = Some (tt, h1) ->
  OperationsStamped (T_specMinorVersion d) h1 l.
Proof.
  intros Hc Hl Hinv Hrun path' method' ol Hat.
  destruct (AddOperation_returns_known _ _ _ _ _ _ Hrun) as [k Hk].
  destruct (AddOperation_chain l d path method k operation h Hk Hc Hl)
    as (h1' & _ & _ & _ & _ & Hrun' & _ & _ & _ & _ & _ & _ & Hops & _).
  rewrite Hrun in Hrun'. injection Hrun' as <-.
  eapply OperationHas_ext; [exact Hops|].
  destruct (AddOperation_reachable _ _ _ _ _ _ _ _ _ _ Hc Hl Hrun Hat) as [->|Hold].
  - apply Operation_With_Has, stamp_Stamped.
  - eapply OperationHas_mono;
      [apply Operation_With_Restamped, stamp_Stamped|].
    by eapply Hinv.
Qed.

End AddOperationMore.

(** ** More on AddServer *)

Section AddServerMore.
Context `{Collaborators}.
Implicit Types (h : Heap) (d : T) (l : loc).

(** X11: two calls of AddServer on a live document both return, and the
    server list read from the document afterwards is the former list, then
    the first server, then the second. *)
Theorem AddServer_twice_appends l d server1 server2 h :
  h_docs h !! l = Some d ->
  exists h1 h2 d2,
    T_AddServer (Some l) server1 h = Some (tt, h1)
    /\ T_AddServer (Some l) server2 h1 = Some (tt, h2)
    /\ h_docs h2 !! l = Some d2
    /\ T_Servers d2 = Some (default [] (T_Servers d) ++ [server1; server2])%list.
Proof.
  intros Hl. eexists _, _, _.
  split; [unfold T_AddServer; by rewrite (update_doc_run _ _ _ _ Hl)|].
  split.
  { unfold T_AddServer. erewrite update_doc_run; [done|].
    cbn. apply lookup_insert_eq. }
  split; [cbn; apply lookup_insert_eq|].
  cbn. unfold append. cbn. by rewrite <-app_assoc.
Qed.

(** X12: AddServer stores the server as it is given, without stamping it:
    on a document that is stamped throughout with [v], the document is
    still stamped throughout after the call exactly when the server
    already carried [v]. *)
Theorem AddServer_does_not_stamp l v server h h1 :
  AllStamped v h l ->
  T_AddServer (Some l) server h = Some (tt, h1) ->
  AllStamped v h1 l <-> Stamped v server.
Proof.
  intros (d & Hl & Hv & Hcomp & Hinfo & Hpaths & Hsec & Hsrv & Htags & Hext).
  unfold T_AddServer. rewrite (update_doc_run _ _ _ _ Hl). intros [= <-]. split.
  - intros (d1 & Hl1 & _ & _ & _ & _ & _ & Hsrv1 & _).
    cbn in Hl1. rewrite lookup_insert_eq in Hl1. injection Hl1 as <-.
    apply (Hsrv1 _ server eq_refl). apply elem_of_app. right. by left.
  - intros Hserver. eexists. split; [cbn; apply lookup_insert_eq|].
    split_and!; try done.
    cbn. intros s x [= <-] [Hx|Hx%list_elem_of_singleton]%elem_of_app; [|by subst].
    destruct (T_Servers d) as [old|] eqn:Hold; cbn in Hx.
    + by eapply Hsrv.
    + by apply elem_of_nil in Hx.
Qed.

End AddServerMore.

(** ** More on version propagation *)

Section PropagationMore.
Context `{Collaborators}.
Implicit Types (h : Heap) (d : T) (l : loc).

Lemma foldr_same {X B} (F : Heap -> B) (step : X -> Heap -> Heap) xs h :
  (forall x h, F (step x h) = F h) -> F (foldr step h xs) = F h.
Proof. intros Hstep. induction xs as [|x xs IH]; cbn; [done|]. by rewrite Hstep. Qed.

Lemma PathItem_With_ops_dom v pathItem h :
  dom (h_ops (PathItem_WithMinorOpenAPIVersion v pathItem h)) = dom (h_ops h).
Proof.
  destruct (PathItem_With_cases v pathItem h) as [->|(il & item & _ & _ & ->)]; [done|].
  rewrite (foldr_same (fun h => dom (h_ops h))); [done|].
  intros x h0. apply Operation_With_ops_dom.
Qed.

Lemma Paths_With_ops_dom v paths h :
  dom (h_ops (Paths_WithMinorOpenAPIVersion v paths h)) = dom (h_ops h).
Proof.
  destruct paths as [l|]; [|done]. cbn. destruct (h_paths h !! l) as [m|]; [|done].
  rewrite map_fold_each. apply (foldr_same (fun h => dom (h_ops h))).
  intros x h0. apply PathItem_With_ops_dom.
Qed.

(** X13: version propagation changes stamps and nothing else.  The
    format-version string, the pointer to the endpoint collection, which
    optional children are present and how long the lists are stay the same;
    no other document is written; the maps of paths are untouched, no path
    item or operation is allocated or removed, every slot holds the
    operation pointer it held, and a heap without dangling pointers stays
    one. *)
Theorem WithMinorOpenAPIVersion_keeps_shape l d v h :
  h_docs h !! l = Some d ->
  exists h' d',
    T_WithMinorOpenAPIVersion (Some l) v h = Some (Some l, h')
    /\ h_docs h' !! l = Some d'
    /\ T_OpenAPI d' = T_OpenAPI d
    /\ T_Paths d' = T_Paths d
    /\ (is_Some (T_Info d') <-> is_Some (T_Info d))
    /\ (is_Some (T_ExternalDocs d') <-> is_Some (T_ExternalDocs d))
    /\ length <$> T_Security d' = length <$> T_Security d
    /\ length <$> T_Servers d' = length <$> T_Servers d
    /\ length <$> T_Tags d' = length <$> T_Tags d
    /\ (forall l', l' <> l -> h_docs h' !! l' = h_docs h !! l')
    /\ h_paths h' = h_paths h
    /\ dom (h_items h') = dom (h_items h)
    /\ dom (h_ops h') = dom (h_ops h)
    /\ (forall path method,
          operation_at h' l path method = operation_at h l path method)
    /\ (closed h -> closed h').
Proof.
  intros Hl. eexists _, (stamp_fields v d).
  split; [by apply WithMinorOpenAPIVersion_run|].
  set (hp := Paths_WithMinorOpenAPIVersion v (T_Paths d) h).
  destruct (Paths_With_Restamped v (fun _ => True) (fun _ => I) (T_Paths d) h)
    as (Hdocs & Hpaths & _ & _). fold hp in Hdocs, Hpaths.
  assert (forall il, is_Some (h_items hp !! il) <-> is_Some (h_items h !! il)) as Hlive.
  { intros il. rewrite <-!(fmap_is_Some pi_operations). unfold hp.
    by rewrite Paths_With_items. }
  cbn [h_docs h_paths h_items h_ops with_docs]. split_and!.
  - apply lookup_insert_eq.
  - done.
  - done.
  - cbn. unfold Ptr_WithMinorOpenAPIVersion. by rewrite fmap_is_Some.
  - cbn. unfold Ptr_WithMinorOpenAPIVersion. by rewrite fmap_is_Some.
  - cbn. destruct (T_Security d); cbn; [|done]. by rewrite length_fmap.
  - cbn. destruct (T_Servers d); cbn; [|done]. by rewrite length_fmap.
  - cbn. destruct (T_Tags d); cbn; [|done]. by rewrite length_fmap.
  - intros l' Hne. rewrite lookup_insert_ne by done. by rewrite Hdocs.
  - exact Hpaths.
  - apply set_eq. intros il. rewrite !elem_of_dom. apply Hlive.
  - apply Paths_With_ops_dom.
  - intros path method. rewrite !operation_at_eq.
    cbn [h_docs h_paths h_items with_docs]. rewrite lookup_insert_eq, Hl.
    cbn [T_Paths stamp_fields]. destruct (T_Paths d) as [paths|] eqn:Hp; [|done].
    rewrite Hpaths. destruct (h_paths h !! paths) as [m|]; [|done].
    destruct (m !! path) as [[il|]|]; [|done..].
    pose proof (Paths_With_items v (Some paths) h il) as Hops. fold hp in Hops.
    destruct (h_items hp !! il) as [item'|], (h_items h !! il) as [item|];
      cbn in Hops; try done. by injection Hops as ->.
  - intros [Hc1 Hc2]. split; cbn [h_docs h_paths h_items with_docs].
    + intros l' d' paths. rewrite lookup_insert. case_decide.
      * intros [= <-]. cbn. rewrite Hpaths. intros Hp0. by eapply (Hc1 l d).
      * rewrite Hdocs, Hpaths. apply Hc1.
    + intros paths m path il. rewrite Hpaths. intros Hm Hpath.
      apply Hlive. by eapply Hc2.
Qed.

Lemma propagation_closed l d v h :
  h_docs h !! l = Some d -> closed h ->
  closed (with_docs (insert l (stamp_fields v d))
            (Paths_WithMinorOpenAPIVersion v (T_Paths d) h)).
Proof.
  intros Hl [Hc1 Hc2].
  set (hp := Paths_WithMinorOpenAPIVersion v (T_Paths d) h).
  destruct (Paths_With_Restamped v (fun _ => True) (fun _ => I) (T_Paths d) h)
    as (Hdocs & Hpaths & _ & _). fold hp in Hdocs, Hpaths.
  split; cbn [h_docs h_paths h_items with_docs].
  - intros l' d' paths. rewrite lookup_insert. case_decide.
    + intros [= <-]. cbn. rewrite Hpaths. intros Hp0. by eapply (Hc1 l d).
    + rewrite Hdocs, Hpaths. apply Hc1.
  - intros paths m path il. rewrite Hpaths. intros Hm Hpath.
    rewrite <-(fmap_is_Some pi_operations). unfold hp.
    rewrite Paths_With_items, fmap_is_Some. by eapply Hc2.
Qed.

Lemma propagation_operations_stamped `{!ChildrenLaws} l d v h :
  OperationsStamped v
    (with_docs (insert l (stamp_fields v d))
       (Paths_WithMinorOpenAPIVersion v (T_Paths d) h)) l.
Proof.
  intros path method ol
    (d' & paths & m & il & item & k & Hl' & Hp & Hm & Hpath & Hitem & Hk & Hop)
      %operation_at_inv.
  cbn [h_docs h_paths h_items with_docs] in Hl', Hm, Hitem.
  rewrite lookup_insert_eq in Hl'. injection Hl' as <-. cbn in Hp.
  pose proof (Paths_With_Have v (Stamped v) (stamp_Stamped v) (T_Paths d) h) as Hhave.
  destruct (Hhave paths m path il Hp Hm Hpath item Hitem) as [_ Hops].
  exact (Hops k ol Hop).
Qed.

(** X14: attaching after stamping keeps the graph in step.  After
    WithMinorOpenAPIVersion with [v], a call of AddOperation for a method
    of the known set returns normally and every operation attached to the
    document, the new one included, carries [v]. *)
Theorem AddOperation_after_propagation `{!ChildrenLaws}
    l d v path method k operation h :
  Method_of_string method = Some k ->
  closed h -> h_docs h !! l = Some d ->
  exists h' h'',
    T_WithMinorOpenAPIVersion (Some l) v h = Some (Some l, h')
    /\ T_AddOperation (Some l) path method operation h' = Some (tt, h'')
    /\ operation_at h'' l path method = Some operation
    /\ OperationsStamped v h'' l.
Proof.
  intros Hk Hc Hl. eexists.
  assert (h_docs (with_docs (insert l (stamp_fields v d))
                    (Paths_WithMinorOpenAPIVersion v (T_Paths d) h)) !! l
          = Some (stamp_fields v d)) as Hl' by (cbn; apply lookup_insert_eq).
  pose proof (propagation_closed l d v h Hl Hc) as Hc'.
  destruct (AddOperation_chain l _ path method k operation _ Hk Hc' Hl')
    as (h'' & paths & m1 & pathItem & item1 & Hrun & _ & Hl1 & Hm1 & Hpath1
        & Hitem1 & Hop1 & Hops & _).
  exists h''. split; [by apply WithMinorOpenAPIVersion_run|].
  split; [exact Hrun|]. split; [by erewrite operation_at_slot|].
  intros path' method' ol Hat.
  eapply OperationHas_ext; [exact Hops|].
  destruct (AddOperation_reachable _ _ _ _ _ _ _ _ _ _ Hc' Hl' Hrun Hat) as [->|Hold].
  - apply Operation_With_Has, stamp_Stamped.
  - eapply OperationHas_mono; [apply Operation_With_Restamped, stamp_Stamped|].
    by eapply (propagation_operations_stamped l d v h).
Qed.

End PropagationMore.

(** ** The methods at work on the sample documents *)

Module Runs.
Import Sample.
#[local] Existing Instance children.
#[local] Existing Instance collaborators.

Lemma Named_Laws : @NodeLaws _ Named Named_Node.
Proof. split; done. Qed.

Lemma Registry_Laws : @NodeLaws _ (list Named) Registry_Node.
Proof.
  split.
  - intros v l. cbn. apply Forall_fmap, Forall_true. done.
  - intros v l. cbn. rewrite <-list_fmap_compose. by apply list_fmap_ext.
Qed.

Lemma sample_laws : ChildrenLaws.
Proof. split; first [exact Named_Laws | exact Registry_Laws]. Qed.

Lemma closed_heap2 : closed heap2.
Proof.
  split; cbn [heap2 h_docs h_paths h_items].
  - intros l d paths [<- <-]%lookup_singleton_Some [= <-]. by eexists.
  - intros paths m path pathItem [<- <-]%lookup_singleton_Some. by rewrite lookup_empty.
Qed.

(** C1, at a concrete input: the bytes decode, the format-version says
    minor version 1, and the stamp of the document is still 0. *)
Lemma UnmarshalJSON_sample :
  let data := String.list_byte_of_string "3.1.0" in
  let h' := with_docs (insert 1%positive (set_OpenAPI "3.1.0" zero)) heap0 in
  T_UnmarshalJSON (Some 1%positive) data heap0 = Some (None, h')
  /\ (T_specMinorVersion <$> h_docs h' !! 1%positive) = Some 0%N
  /\ (Version_Minor ∘ T_OpenAPI <$> h_docs h' !! 1%positive) = Some 1%N.
Proof.
  intros data h'. split; [|split; reflexivity].
  apply UnmarshalJSON_success_skips_propagation. reflexivity.
Defined.

(** C2, as stated, fails on the zero document: info block and endpoint
    collection are both missing, and the failure reported is the one of
    the format-version. *)
Lemma Validate_zero_reports_openapi :
  finding [] heap0 zero info_step = Some (errors_New "must be an object")
  /\ finding [] heap0 zero paths_step = Some (errors_New "must be an object")
  /\ T_Validate [] [] heap0 zero
     = Some (fmt_Errorf "invalid openapi value: "
               (errors_New "must be a non-empty string"))
  /\ T_Validate [] [] heap0 zero
     <> Some (fmt_Errorf "invalid info: " (errors_New "must be an object")).
Proof. split_and!; [reflexivity..|discriminate]. Defined.

(** C2 as amended, on a document with a valid version and neither info
    block nor endpoint collection. *)
Lemma Validate_bare_reports_info :
  finding [] heap0 bare paths_step = Some (errors_New "must be an object")
  /\ T_Validate [] [] heap0 bare
     = Some (fmt_Errorf "invalid info: " (errors_New "must be an object")).
Proof.
  split; [reflexivity|].
  destruct (proj2 (Validate_fixed_order (H0 := collaborators) [] [] heap0 bare)
              (errors_New "must be an object") eq_refl) as [_ Hinfo].
  apply Hinfo; reflexivity.
Defined.

Lemma Validate_zero_empty_openapi :
  T_Validate [] [DisableExamplesValidation] heap0 zero
  = Some (fmt_Errorf "invalid openapi value: "
            (errors_New "must be a non-empty string")).
Proof. apply Validate_empty_openapi. reflexivity. Defined.


(** C5, as stated, fails: version valid, registry empty, info block and
    endpoint collection present, and the info block is rejected. *)
Lemma Validate_untitled_fails :
  T_OpenAPI untitled = "3.0.0"
  /\ Version_Validate [] (T_OpenAPI untitled) = None
  /\ T_Components untitled = []
  /\ T_Info untitled = Some (mkNamed "" 0)
  /\ T_Paths untitled = Some 1%positive
  /\ h_paths heap1 !! 1%positive = Some ∅
  /\ T_Validate [] [] heap1 untitled
     = Some (fmt_Errorf "invalid info: "
               (errors_New "name must be a non-empty string")).
Proof. split_and!; reflexivity. Defined.

Lemma Validate_minimal_succeeds : T_Validate [] [] heap1 minimal = None.
Proof.
  apply (Validate_succeeds (H0 := collaborators) [] [] heap1 minimal (mkNamed "Pet store" 0) 1%positive);
    try reflexivity.
  - discriminate.
  - intros s Hs.
    repeat (apply elem_of_cons in Hs as [->|Hs]; [reflexivity|]).
    by apply elem_of_nil in Hs.
Defined.

Lemma Validate_blank_succeeds :
  T_Validate [] [] heap1 blank_lists = None /\ T_Validate [] [] heap1 minimal = None.
Proof.
  split.
  - apply (proj2 (Validate_blank_optional (H0 := collaborators) [] [] heap1 blank_lists)).
    intros s. destruct s; first [right; reflexivity | left; cbn; by right].
  - apply (proj2 (Validate_blank_optional (H0 := collaborators) [] [] heap1 minimal)).
    intros s. destruct s; first [right; reflexivity | left; cbn; by left | by left].
Defined.

(** C7 on the sample document: the operation attached by AddOperation
    carried the stamp 3 of the document; after propagation of 1 the
    document, its path item and the operation carry 1, the operation is
    still in its slot, and a second call changes nothing. *)
Lemma Propagation_sample :
  T_AddOperation (Some 1%positive) "/pets" "GET" (Some 5%positive) heap2
  = Some (tt, heap3)
  /\ h_ops heap3 !! 5%positive = Some (mkNamed "listPets" 3)
  /\ exists h',
       T_WithMinorOpenAPIVersion (Some 1%positive) 1 heap3 = Some (Some 1%positive, h')
       /\ (T_specMinorVersion <$> h_docs h' !! 1%positive) = Some 1%N
       /\ h_paths h' = h_paths heap3
       /\ h_items h' !! 1%positive = Some (mkPathItem 1 {[ GET := Some 5%positive ]})
       /\ h_ops h' !! 5%positive = Some (mkNamed "listPets" 1)
       /\ operation_at h' 1%positive "/pets" "GET" = Some (Some 5%positive)
       /\ AllStamped 1 h' 1%positive
       /\ OperationStamped 1 h' 5%positive
       /\ T_WithMinorOpenAPIVersion (Some 1%positive) 1 h' = Some (Some 1%positive, h').
Proof.
  assert (T_AddOperation (Some 1%positive) "/pets" "GET" (Some 5%positive) heap2
          = Some (tt, heap3)) as Hadd by reflexivity.
  split; [exact Hadd|]. split; [reflexivity|].
  destruct (WithMinorOpenAPIVersion_propagates (H1 := sample_laws)
              1%positive _ 1%N heap3 eq_refl)
    as (h' & Hrun & Hdoc & Hpaths & Hexact & _ & Hall & _ & Hattached & Hidem).
  destruct (Hexact 1%positive {[ "/pets" := Some 1%positive ]} "/pets" 1%positive
              (mkPathItem 0 {[ GET := Some 5%positive ]})
              eq_refl eq_refl eq_refl eq_refl) as [Hitem _].
  destruct (Hattached heap2 "/pets" "GET" 5%positive closed_heap2 Hadd)
    as (Hat & Hstamped & Hop).
  exists h'. split; [exact Hrun|].
  split; [exact (f_equal (fmap T_specMinorVersion) Hdoc)|].
  split; [exact Hpaths|]. split; [exact Hitem|].
  split; [exact (Hop _ eq_refl)|]. split; [exact Hat|].
  split; [exact Hall|]. split; [exact Hstamped|exact Hidem].
Defined.

(** C8, as stated, fails: a method string outside the known set, here the
    lower-case name, on a live document in a heap without dangling
    pointers. *)
Lemma AddOperation_unknown_method_panics :
  h_docs heap2 !! 1%positive = Some (set_specMinorVersion 3 minimal)
  /\ closed heap2
  /\ Method_of_string "get" = None
  /\ T_AddOperation (Some 1%positive) "/pets" "get" (Some 5%positive) heap2 = None.
Proof. split_and!; [reflexivity|exact closed_heap2|reflexivity..]. Defined.

Lemma AddOperation_sample :
  exists h1 h2,
    T_AddOperation (Some 1%positive) "/pets" "GET" (Some 5%positive) heap2
    = Some (tt, h1)
    /\ operation_at h1 1%positive "/pets" "GET" = Some (Some 5%positive)
    /\ OperationStamped 3 h1 5%positive
    /\ T_AddOperation (Some 1%positive) "/pets" "GET" (Some 6%positive) h1
       = Some (tt, h2)
    /\ dom (h_items h2) = dom (h_items h1)
    /\ operation_at h2 1%positive "/pets" "GET" = Some (Some 6%positive).
Proof.
  destruct (AddOperation_upserts (H1 := sample_laws) 1%positive _ "/pets" "GET" GET
              (Some 5%positive) heap2 eq_refl closed_heap2 eq_refl)
    as (h1 & Hrun & _ & Hat & _ & _ & Hstamp & _ & Hagain).
  destruct (Hagain (Some 6%positive)) as (h2 & Hrun2 & _ & _ & Hdom & Hat2 & _).
  exists h1, h2. split_and!; try done.
  by destruct (Hstamp 5%positive (mkNamed "listPets" 0) eq_refl eq_refl).
Defined.

Lemma AddServer_sample :
  let server : Server := mkNamed "https://example.org" 0 in
  exists h1 d1,
    T_AddServer (Some 1%positive) server heap0 = Some (tt, h1)
    /\ h_docs h1 !! 1%positive = Some d1
    /\ T_Servers zero = None
    /\ T_Servers d1 = Some [server]
    /\ exists h2 d2,
         T_AddServer (Some 1%positive) server h1 = Some (tt, h2)
         /\ h_docs h2 !! 1%positive = Some d2
         /\ T_Servers d2 = Some [server; server].
Proof.
  intros server.
  destruct (AddServer_appends (H := children) 1%positive zero server heap0 eq_refl)
    as (h1 & d1 & servers1 & Hrun1 & Hl1 & Hs1 & -> & _).
  exists h1, d1. split; [exact Hrun1|]. split; [exact Hl1|].
  split; [reflexivity|]. split; [exact Hs1|].
  destruct (AddServer_appends (H := children) 1%positive d1 server h1 Hl1)
    as (h2 & d2 & servers2 & Hrun2 & Hl2 & Hs2 & -> & _).
  exists h2, d2. split; [exact Hrun2|]. split; [exact Hl2|].
  by rewrite Hs2, Hs1.
Defined.

Lemma heap2_operations_stamped : OperationsStamped 3 heap2 1%positive.
Proof.
  intros path method ol
    (d & paths & m & il & item & k & Hl & Hp & Hm & Hpath & _)%operation_at_inv.
  cbn [heap2 h_docs h_paths] in Hl, Hm.
  apply lookup_singleton_Some in Hl as [_ <-]. injection Hp as <-.
  apply lookup_singleton_Some in Hm as [_ <-]. by rewrite lookup_empty in Hpath.
Qed.

Lemma heap2_items_unshared : items_unshared heap2 1%positive.
Proof.
  intros d paths m path path' il Hl Hp Hm Hpath.
  cbn [heap2 h_docs h_paths] in Hl, Hm.
  apply lookup_singleton_Some in Hl as [_ <-]. injection Hp as <-.
  apply lookup_singleton_Some in Hm as [_ <-]. by rewrite lookup_empty in Hpath.
Qed.

Lemma heap_stamped_AllStamped : AllStamped 3 heap_stamped 1%positive.
Proof.
  eexists. split; [reflexivity|]. split_and!; try done.
  - by apply Forall_nil.
  - by intros x [= <-].
Qed.

Lemma Validate_missing_required_sample :
  T_Validate [] [] heap0 bare
  = Some (fmt_Errorf "invalid info: " (errors_New "must be an object"))
  /\ T_Validate [] [] heap1 no_paths
     = Some (fmt_Errorf "invalid paths: " (errors_New "must be an object")).
Proof.
  split.
  - apply (Validate_missing_required (H0 := collaborators) [] [] heap0 bare);
      first [discriminate | reflexivity].
  - eapply (Validate_missing_required (H0 := collaborators) [] [] heap1 no_paths);
      first [discriminate | reflexivity].
Defined.

Lemma Validate_message_sample :
  exists s e,
    first_failure [] heap1 untitled steps = Some (s, e)
    /\ "invalid info: name must be a non-empty string" = label s ++ Error e
    /\ String.prefix (label s) "invalid info: name must be a non-empty string" = true
    /\ forall s',
         String.prefix (label s') "invalid info: name must be a non-empty string" = true ->
         s' = s.
Proof.
  apply (Validate_message_names_field (H0 := collaborators) [] [] heap1 untitled
           (fmt_Errorf "invalid info: " (errors_New "name must be a non-empty string"))).
  reflexivity.
Defined.

Lemma Validate_optional_report_sample :
  T_OpenAPI bad_server <> ""
  /\ Version_Validate ([] : Ctx) (T_OpenAPI bad_server) = None
  /\ Validate (A := Components) ([] : Ctx) (T_Components bad_server) = None
  /\ (exists i, T_Info bad_server = Some i /\ Validate (A := Info) ([] : Ctx) i = None)
  /\ (exists p, T_Paths bad_server = Some p
                /\ Paths_Validate ([] : Ctx) heap1 p = None).
Proof.
  apply (Validate_optional_report (H0 := collaborators) [] [] heap1 bad_server
           servers_step (errors_New "name must be a non-empty string")).
  - reflexivity.
  - rewrite !elem_of_cons. tauto.
Defined.

Lemma UnmarshalJSON_decoder_error_sample :
  let data := String.list_byte_of_string "3.1.0" in
  let h' := with_docs (insert 1%positive (set_OpenAPI "3.1.0" zero)) heap0 in
  exists h1,
    jsoninfo_UnmarshalStrictStruct data (Some 1%positive) heap0 = Some (None, h1)
    /\ (@None error = None -> h' = h1).
Proof.
  intros data h'.
  apply (UnmarshalJSON_returns_decoder_error (Some 1%positive) data heap0).
  reflexivity.
Defined.

Lemma UnmarshalJSON_failure_sample :
  exists h2,
    T_WithMinorOpenAPIVersion (Some 1%positive) 1 heap31 = Some (Some 1%positive, h2)
    /\ T_UnmarshalJSON (Some 1%positive) [] heap31
       = Some (Some (errors_New "unexpected end of JSON input"), h2)
    /\ (T_specMinorVersion <$> h_docs h2 !! 1%positive) = Some 1%N.
Proof.
  apply (UnmarshalJSON_failure_stamps (H0 := collaborators) 1%positive
           (set_OpenAPI "3.1.0" zero) [] (errors_New "unexpected end of JSON input")
           heap31 heap31);
    reflexivity.
Defined.

Lemma AddOperation_frame_sample :
  (exists paths,
     h_docs heap3
     = <[1%positive := set_Paths (Some paths) (set_specMinorVersion 3 minimal)]>
         (h_docs heap2))
  /\ dom (h_ops heap3) = dom (h_ops heap2)
  /\ h_ops heap3 !! 6%positive = h_ops heap2 !! 6%positive.
Proof.
  destruct (AddOperation_frame 1%positive (set_specMinorVersion 3 minimal)
              "/pets" "GET" (Some 5%positive) heap2 heap3 closed_heap2
              eq_refl eq_refl) as (Hdocs & Hdom & Hother & _).
  split_and!; [exact Hdocs|exact Hdom|]. by apply Hother.
Defined.

Lemma AddOperation_stamped_sample : OperationsStamped 3 heap3 1%positive.
Proof.
  apply (AddOperation_keeps_operations_stamped (H1 := sample_laws) 1%positive
           (set_specMinorVersion 3 minimal) "/pets" "GET" (Some 5%positive)
           heap2 heap3 closed_heap2 eq_refl heap2_operations_stamped eq_refl).
Defined.

Lemma AddOperation_other_slots_sample :
  closed heap3
  /\ items_unshared heap3 1%positive
  /\ operation_at heap3 1%positive "/pets" "GET" = Some (Some 5%positive)
  /\ operation_at heap3 1%positive "/pets" "POST"
     = operation_at heap2 1%positive "/pets" "POST".
Proof.
  destruct (AddOperation_other_slots 1%positive (set_specMinorVersion 3 minimal)
              "/pets" "GET" (Some 5%positive) heap2 heap3 closed_heap2
              heap2_items_unshared eq_refl eq_refl) as (Hc & Hun & Hat & Hframe).
  split_and!; [done..|]. apply Hframe. by right.
Defined.


Lemma AddServer_twice_sample :
  let a : Server := mkNamed "https://a.example.org" 0 in
  let b : Server := mkNamed "https://b.example.org" 0 in
  exists h1 h2 d2,
    T_AddServer (Some 1%positive) a heap0 = Some (tt, h1)
    /\ T_AddServer (Some 1%positive) b h1 = Some (tt, h2)
    /\ h_docs h2 !! 1%positive = Some d2
    /\ T_Servers d2 = Some [a; b].
Proof.
  intros a b.
  apply (AddServer_twice_appends (H := children) 1%positive zero a b heap0 eq_refl).
Defined.

Lemma AddServer_unstamped_sample :
  let server : Server := mkNamed "https://example.org" 0 in
  let h1 := with_docs (insert 1%positive (set_Servers (Some [server]) stamped))
              heap_stamped in
  AllStamped 3 h1 1%positive <-> Stamped (A := Server) 3 server.
Proof.
  intros server h1.
  apply (AddServer_does_not_stamp (H := children) 1%positive 3%N server
           heap_stamped h1 heap_stamped_AllStamped).
  reflexivity.
Defined.

Lemma Propagation_shape_sample :
  exists h' d',
    T_WithMinorOpenAPIVersion (Some 1%positive) 1 heap3 = Some (Some 1%positive, h')
    /\ h_docs h' !! 1%positive = Some d'
    /\ T_OpenAPI d' = "3.0.0"
    /\ h_paths h' = h_paths heap3
    /\ operation_at h' 1%positive "/pets" "GET"
       = operation_at heap3 1%positive "/pets" "GET".
Proof.
  destruct (WithMinorOpenAPIVersion_keeps_shape (H := children) 1%positive
              (set_specMinorVersion 3 minimal) 1%N heap3 eq_refl)
    as (h' & d' & Hrun & Hl & Hv & _ & _ & _ & _ & _ & _ & _ & Hp & _ & _ & Hat & _).
  exists h', d'. split; [exact Hrun|]. split; [exact Hl|]. split; [exact Hv|].
  split; [exact Hp|]. apply Hat.
Defined.

Lemma AddOperation_after_propagation_sample :
  exists h' h'',
    T_WithMinorOpenAPIVersion (Some 1%positive) 1 heap2 = Some (Some 1%positive, h')
    /\ T_AddOperation (Some 1%positive) "/pets" "GET" (Some 5%positive) h'
       = Some (tt, h'')
    /\ operation_at h'' 1%positive "/pets" "GET" = Some (Some 5%positive)
    /\ OperationsStamped 1 h'' 1%positive.
Proof.
  apply (AddOperation_after_propagation (H1 := sample_laws) 1%positive
           (set_specMinorVersion 3 minimal) 1%N "/pets" "GET" GET (Some 5%positive)
           heap2 eq_refl closed_heap2 eq_refl).
Defined.

End Runs.
